(** * comparison-fns: composable comparison functions

    A shallow embedding of [src/index.ts] and the properties its
    specification states about it.

    - A JavaScript [number] is an IEEE 754 binary64 value: Rocq's primitive
      [float].  [a - b], [a < b], [a === b], [isNaN] and [isFinite] are the
      primitive operations, so rounding, overflow, signed zeros, NaN and the
      infinities behave as they do in the engine.
    - [CompareResult] is the integer a comparer returns ([-1 | 0 | 1]).
    - Strings are [string]s of code units; the host's [localeCompare] and
      [Intl.Collator] are parameters ([Host], [Collator]).
    - An array is a [list]; a [Map] is a [gmap].  The object used as a table
      by [groupComparer] is its own entries, a [gmap], together with what it
      inherits from its prototype chain ([ComparerTable]).
    - A comparison by [groupComparer] has an [Outcome]: it returns a
      comparison result, returns another value, or throws. *)

From Stdlib Require Import ZArith Floats Ascii String List Bool Lia Sorted Permutation.
From stdpp Require Import gmap strings list.

Local Open Scope Z_scope.

(** ** Results and comparers *)

Definition CompareResult := Z.

Definition Comparer (T : Type) := T -> T -> CompareResult.

(** [function sign(value: number): CompareResult]. *)
Definition sign (value : float) : CompareResult :=
  if (0 <? value)%float then 1
  else if (value <? 0)%float then -1
  else 0.

(** The number the engine holds for a mathematical integer: the integer
    rounded to the nearest binary64 value, ties to even (exact up to [2^53]).
    It is how an array length, an array index and the result of [parseInt]
    enter the world of numbers. *)
Definition number_of_Z (z : Z) : float :=
  SF2Prim (binary_normalize prec emax z 0 false).

Definition number_of_nat (n : nat) : float := number_of_Z (Z.of_nat n).

(** The global functions [isNaN] and [isFinite], on arguments that already are
    numbers. *)
Definition isNaN (value : float) : bool := is_nan value.

Definition isFinite (value : float) : bool := is_finite value.

(** ** Run-time unions *)

(** [T | null | undefined]. *)
Inductive Nullable (T : Type) : Type :=
  | null
  | undefined
  | present (value : T).

Arguments null {T}.
Arguments undefined {T}.
Arguments present {T} value.

Definition isNullable {T} (value : Nullable T) : bool :=
  match value with
  | null => true
  | undefined => true
  | present _ => false
  end.

Definition isNonNullable {T} (value : Nullable T) : bool :=
  match value with
  | null => false
  | undefined => false
  | present _ => true
  end.

(** [number | string]. *)
Inductive NumberOrString : Type :=
  | num (n : float)
  | str (s : string).

(** [typeof value === "number"]. *)
Definition isNumber (value : NumberOrString) : bool :=
  match value with
  | num _ => true
  | str _ => false
  end.

(** TypeScript erases types: a [Comparer<TOut>] handed to a combinator over a
    union is called with the union's values themselves.  The three casts below
    make that explicit.  Outside the narrowed type the comparer's behaviour is
    not given by its type; the embedding answers [0] there, and the theorems on
    [nullableFirstComparer], [nullableLastComparer] and
    [compareNumberOrString] show those branches are never taken. *)
Definition onPresent {T} (comparer : Comparer T) : Comparer (Nullable T) :=
  fun a b =>
    match a, b with
    | present x, present y => comparer x y
    | _, _ => 0
    end.

Definition onNumbers (comparer : Comparer float) : Comparer NumberOrString :=
  fun a b =>
    match a, b with
    | num x, num y => comparer x y
    | _, _ => 0
    end.

Definition onStrings (comparer : Comparer string) : Comparer NumberOrString :=
  fun a b =>
    match a, b with
    | str x, str y => comparer x y
    | _, _ => 0
    end.

(** ** The host *)

(** [String.prototype.localeCompare(that, locales?)]. *)
Class Host := {
  localeCompare : string -> string -> option string -> float
}.

(** An [Intl.Collator], seen through its [compare] method. *)
Record Collator := {
  collate : string -> string -> float
}.

(** A [Date], seen through [getTime()] (NaN for an invalid date). *)
Record Date := {
  getTime : float
}.

(** Modelled from the spec: the host's sort routine ([Array.prototype.sort],
    [toSorted]) is not part of the library; the specification requires it to be
    stable.  This is the stable insertion sort: an element is placed before the
    first element it does not compare after, so elements that compare equal
    keep their input order. *)
Fixpoint insertSorted {T} (compare : Comparer T) (x : T) (sorted : list T) : list T :=
  match sorted with
  | [] => [x]
  | y :: rest =>
      if 0 <? compare x y then y :: insertSorted compare x rest
      else x :: sorted
  end.

Definition toSorted {T} (compare : Comparer T) (items : list T) : list T :=
  foldr (insertSorted compare) [] items.

(** What every sort routine guarantees for a consistent comparer: the output
    is a rearrangement of the input in which no element compares after a
    later one. *)
Definition isSortOf {T} (compare : Comparer T) (input output : list T) : Prop :=
  Permutation input output /\ StronglySorted (fun x y => compare x y <= 0) output.

(** ** The library *)

(** [compareEqual]. *)
Definition compareEqual {T} : Comparer T := fun a b => 0.

(** [conditionFirstComparer(condition, trueComparer, falseComparer)]. *)
Definition conditionFirstComparer {T} (condition : T -> bool)
    (trueComparer falseComparer : Comparer T) : Comparer T :=
  fun a b =>
    let aIsCondition := condition a in
    let bIsCondition := condition b in
    if aIsCondition && bIsCondition then trueComparer a b
    else if aIsCondition then -1
    else if bIsCondition then 1
    else falseComparer a b.

(** [conditionTypeFirstComparer(condition, trueComparer, falseComparer)]: at
    run time a type guard is a predicate, and both comparers receive [a] and
    [b] as they are. *)
Definition conditionTypeFirstComparer {TIn} (condition : TIn -> bool)
    (trueComparer falseComparer : Comparer TIn) : Comparer TIn :=
  fun a b =>
    let aIsCondition := condition a in
    let bIsCondition := condition b in
    if aIsCondition && bIsCondition then trueComparer a b
    else if aIsCondition then -1
    else if bIsCondition then 1
    else falseComparer a b.

(** [constFirstComparer(value)], with [item === value] as [strictEquals]. *)
Definition constFirstComparer {T} (strictEquals : T -> T -> bool) (value : T) : Comparer T :=
  conditionFirstComparer (fun item => strictEquals item value) compareEqual compareEqual.

(** [nullableFirstComparer(comparer)]. *)
Definition nullableFirstComparer {T} (comparer : Comparer T) : Comparer (Nullable T) :=
  conditionTypeFirstComparer isNullable compareEqual (onPresent comparer).

(** [nullableLastComparer(comparer)]. *)
Definition nullableLastComparer {T} (comparer : Comparer T) : Comparer (Nullable T) :=
  conditionTypeFirstComparer isNonNullable (onPresent comparer) compareEqual.

Definition compareNullableFirst {T} : Comparer (Nullable T) :=
  nullableFirstComparer compareEqual.

Definition compareNanFirst : Comparer float :=
  conditionFirstComparer isNaN compareEqual compareEqual.

Definition comparePositiveInfinityFirst : Comparer float :=
  constFirstComparer PrimFloat.eqb infinity.

Definition compareNegativeInfinityFirst : Comparer float :=
  constFirstComparer PrimFloat.eqb neg_infinity.

(** [compareFiniteNumber]. *)
Definition compareFiniteNumber : Comparer float :=
  fun a b => if isFinite a && isFinite b then sign (a - b)%float else 0.

(** [compareBoolean]. *)
Definition compareBoolean : Comparer bool :=
  fun a b => if Bool.eqb a b then 0 else if a then 1 else -1.

(** [invertComparer]. *)
Definition invertComparer {T} (comparer : Comparer T) : Comparer T :=
  fun a b => comparer b a.

(** [chainComparers(...comparers)]: the [for ... of] loop. *)
Fixpoint chainComparers {T} (comparers : list (Comparer T)) : Comparer T :=
  fun a b =>
    match comparers with
    | [] => 0
    | comparer :: rest =>
        let result := comparer a b in
        if negb (result =? 0) then result else chainComparers rest a b
    end.

(** [compareNumber]. *)
Definition compareNumber : Comparer float :=
  chainComparers
    [ compareNanFirst;
      compareNegativeInfinityFirst;
      invertComparer comparePositiveInfinityFirst;
      compareFiniteNumber ].

(** [mapComparer(comparer, mapper)]. *)
Definition mapComparer {TIn TOut} (comparer : Comparer TOut) (mapper : TIn -> TOut) :
    Comparer TIn :=
  fun a b => comparer (mapper a) (mapper b).

(** [compareString], [localeComparer(locale)] and [collatorComparer(collator)]. *)
Definition compareString `{Host} : Comparer string :=
  fun a b => sign (localeCompare a b None).

Definition localeComparer `{Host} (locale : string) : Comparer string :=
  fun a b => sign (localeCompare a b (Some locale)).

Definition collatorComparer (collator : Collator) : Comparer string :=
  fun a b => sign (collate collator a b).

(** [compareDate]. *)
Definition compareDate : Comparer Date :=
  mapComparer compareFiniteNumber (fun date => getTime date).

(** [new Map(entries)]: the constructor calls [set] for each entry in turn, so
    a later entry replaces an earlier one with the same key. *)
Definition newMap `{Countable K} {V} (entries : list (K * V)) : gmap K V :=
  foldl (fun map entry => <[entry.1 := entry.2]> map) ∅ entries.

(** [orderComparer(ordering)].  The keys of the [Map] are compared by
    SameValueZero, which is equality on [T]. *)
Section OrderComparer.
Context `{Countable T}.

Definition orderLookup (ordering : list T) : gmap T nat :=
  newMap (imap (fun index item => (item, index)) ordering).

Definition orderIndexOf (ordering : list T) (item : T) : nat :=
  match orderLookup ordering !! item with
  | Some index => index
  | None => length ordering
  end.

Definition orderComparer (ordering : list T) : Comparer T :=
  fun a b =>
    sign (number_of_nat (orderIndexOf ordering a) - number_of_nat (orderIndexOf ordering b))%float.
End OrderComparer.

(** The table of [groupComparer].  [compareFns] is an object and
    [compareFns[key]] a property lookup: it yields the object's own entry for
    [key] if there is one, otherwise what the object inherits for [key] along
    its prototype chain, and [undefined] if there is neither.  For an object
    literal the chain is [Object.prototype], so that a key such as [toString]
    or [__proto__] finds a member although the table has no entry for it.
    What is inherited is not code of the library: the table carries it as
    given, a function with what a call of it on [(a, b)] does, or a value that
    is not a function (an inherited accessor counts as the value its getter
    gives).  One comparison is modelled: a call is taken by what it returns or
    throws. *)
Inductive CallResult (TOther : Type) : Type :=
  | callReturnsNullish
  | callReturns (result : CompareResult)
  | callReturnsOther (value : TOther)
  | callThrows.
Arguments callReturnsNullish {TOther}.
Arguments callReturns {TOther} result.
Arguments callReturnsOther {TOther} value.
Arguments callThrows {TOther}.

Inductive Inherited (TValue TOther : Type) : Type :=
  | inheritedFunction (call : TValue -> TValue -> CallResult TOther)
  | inheritedValue.
Arguments inheritedFunction {TValue TOther} call.
Arguments inheritedValue {TValue TOther}.

Record ComparerTable (TKey : Type) `{Countable TKey} (TValue TOther : Type) : Type := {
  entries : gmap TKey (Comparer TValue);
  inherited : TKey -> option (Inherited TValue TOther) }.
Arguments entries {TKey _ _ TValue TOther} _.
Arguments inherited {TKey _ _ TValue TOther} _ _.

(** What a comparison by [groupComparer] does: it returns a comparison
    result, returns another value (one that an inherited function returned,
    such as the string "[object Object]"), or throws. *)
Inductive Outcome (TOther : Type) : Type :=
  | returns (result : CompareResult)
  | returnsOther (value : TOther)
  | throws.
Arguments returns {TOther} result.
Arguments returnsOther {TOther} value.
Arguments throws {TOther}.

(** [compareFns[key](a, b) ?? 0].  Calling [undefined] or a value that is not
    a function throws a [TypeError].  An entry of the table is a [Comparer]
    and returns a number, on which [?? 0] is the identity; an inherited
    function may return [undefined] or [null], which [?? 0] replaces by [0]. *)
Definition callEntry `{Countable TKey} {TValue TOther}
    (compareFns : ComparerTable TKey TValue TOther) (key : TKey) (a b : TValue) :
    Outcome TOther :=
  match entries compareFns !! key with
  | Some comparer => returns (comparer a b)
  | None =>
      match inherited compareFns key with
      | Some (inheritedFunction call) =>
          match call a b with
          | callReturnsNullish => returns 0
          | callReturns result => returns result
          | callReturnsOther value => returnsOther value
          | callThrows => throws
          end
      | Some inheritedValue => throws
      | None => throws
      end
  end.

(** [groupComparer(compareFns, keyFn, keyCompareFn)].  [x || y] is [x] unless
    [x] is [0]. *)
Definition groupComparer `{Countable TKey} {TValue TOther}
    (compareFns : ComparerTable TKey TValue TOther) (keyFn : TValue -> TKey)
    (keyCompareFn : Comparer TKey) : TValue -> TValue -> Outcome TOther :=
  fun a b =>
    let keyA := keyFn a in
    let keyB := keyFn b in
    let byKey := keyCompareFn keyA keyB in
    if negb (byKey =? 0) then returns byKey
    else callEntry compareFns keyA a b.

(** [arrayComparer(itemComparer)].  [remaining] counts the iterations left,
    [Math.min(a.length, b.length) - index]; when it reaches [0] the loop
    condition fails.  Both lookups succeed exactly when the loop condition
    holds. *)
Fixpoint arrayComparerFrom {T} (itemComparer : Comparer T) (remaining index : nat)
    (a b : list T) : CompareResult :=
  match remaining with
  | O => compareNumber (number_of_nat (length a)) (number_of_nat (length b))
  | S remaining' =>
      match a !! index, b !! index with
      | Some x, Some y =>
          let result := itemComparer x y in
          if negb (result =? 0) then result
          else arrayComparerFrom itemComparer remaining' (S index) a b
      | _, _ => compareNumber (number_of_nat (length a)) (number_of_nat (length b))
      end
  end.

Definition arrayComparer {T} (itemComparer : Comparer T) : Comparer (list T) :=
  fun a b => arrayComparerFrom itemComparer (Nat.min (length a) (length b)) 0 a b.

(** [compareNumberOrString]. *)
Definition compareNumberOrString `{Host} : Comparer NumberOrString :=
  conditionTypeFirstComparer isNumber (onNumbers compareNumber) (onStrings compareString).

(** [compareStringNatural]: the tokens of a string. *)

(** A match of [/([0-9]+)|([^0-9]+)/]: the capture group that took part
    ([match[1]] or [match[2]]; the other one is [undefined]) and its text. *)
Inductive RegExpMatch : Type :=
  | digitRun (text : string)
  | otherRun (text : string).

(** The character class [[0-9]]. *)
Definition isDigit (c : ascii) : bool :=
  (48 <=? nat_of_ascii c)%nat && (nat_of_ascii c <=? 57)%nat.

Definition isNonDigit (c : ascii) : bool := negb (isDigit c).

(** A greedy [class+] tried at the start of [s]: the longest prefix in the
    class (empty when the first character is not in it) and what follows. *)
Fixpoint greedy (class : ascii -> bool) (s : string) : string * string :=
  match s with
  | EmptyString => (EmptyString, EmptyString)
  | String c rest =>
      if class c then
        let '(run, after) := greedy class rest in (String c run, after)
      else (EmptyString, s)
  end.

(** [value.matchAll(/([0-9]+)|([^0-9]+)/g)]: at each position the first
    alternative is tried before the second, and the search resumes after the
    match.  [fuel] bounds the number of matches. *)
Fixpoint matchAllFrom (fuel : nat) (s : string) : list RegExpMatch :=
  match fuel with
  | O => []
  | S fuel' =>
      match s with
      | EmptyString => []
      | String _ next =>
          match greedy isDigit s with
          | (String c run, after) => digitRun (String c run) :: matchAllFrom fuel' after
          | (EmptyString, _) =>
              match greedy isNonDigit s with
              | (String c run, after) => otherRun (String c run) :: matchAllFrom fuel' after
              | (EmptyString, _) => matchAllFrom fuel' next
              end
          end
      end
  end.

Definition matchAll (value : string) : list RegExpMatch :=
  matchAllFrom (String.length value) value.

(** [parseInt(text, 10)] on a text that starts with a digit: the decimal value
    of the leading digits, rounded to a number (an engine may approximate the
    digits after the 20th).  White space and a sign are not modelled: the only
    caller passes a run of digits. *)
Fixpoint decimalValue (acc : Z) (s : string) : Z :=
  match s with
  | EmptyString => acc
  | String c rest =>
      if isDigit c then decimalValue (10 * acc + (Z.of_nat (nat_of_ascii c) - 48)) rest
      else acc
  end.

Definition parseInt10 (text : string) : float :=
  match text with
  | EmptyString => nan
  | String c _ => if isDigit c then number_of_Z (decimalValue 0 text) else nan
  end.

(** [match[1] ? parseInt(match[1], 10) : match[2]]. *)
Definition tokenOfMatch (m : RegExpMatch) : NumberOrString :=
  match m with
  | digitRun text => num (parseInt10 text)
  | otherRun text => str text
  end.

Definition naturalTokens (value : string) : list NumberOrString :=
  map tokenOfMatch (matchAll value).

Definition compareStringNatural `{Host} : Comparer string :=
  mapComparer (arrayComparer compareNumberOrString) naturalTokens.

(** ** Instrumented comparers

    To state which calls a combinator makes, a comparer can also return the
    list of argument pairs it was called with. *)

Definition TracedComparer (T : Type) := T -> T -> CompareResult * list (T * T).

(** A comparer that records the call it receives. *)
Definition recording {T} (comparer : Comparer T) : TracedComparer T :=
  fun a b => (comparer a b, [(a, b)]).

(** A comparer whose calls are not of interest. *)
Definition silent {T} (comparer : Comparer T) : TracedComparer T :=
  fun a b => (comparer a b, []).

(** [conditionTypeFirstComparer], its sub-comparers instrumented. *)
Definition conditionTypeFirstComparerTraced {TIn} (condition : TIn -> bool)
    (trueComparer falseComparer : TracedComparer TIn) : TracedComparer TIn :=
  fun a b =>
    let aIsCondition := condition a in
    let bIsCondition := condition b in
    if aIsCondition && bIsCondition then trueComparer a b
    else if aIsCondition then (-1, [])
    else if bIsCondition then (1, [])
    else falseComparer a b.

(** [nullableFirstComparer] and [nullableLastComparer], recording the calls to
    the wrapped comparer at the point where the union's values are passed to
    it. *)
Definition nullableFirstComparerTraced {T} (comparer : Comparer T) :
    TracedComparer (Nullable T) :=
  conditionTypeFirstComparerTraced isNullable (silent compareEqual)
    (recording (onPresent comparer)).

Definition nullableLastComparerTraced {T} (comparer : Comparer T) :
    TracedComparer (Nullable T) :=
  conditionTypeFirstComparerTraced isNonNullable (recording (onPresent comparer))
    (silent compareEqual).

(** ** Reading a number

    The sign of a binary64 value in its specification ([spec_float]), the
    three-way result of the IEEE comparison, and the finite values. *)

Definition SFsign (x : spec_float) : Z :=
  match x with
  | S754_zero _ => 0
  | S754_nan => 0
  | S754_infinity s => if s then -1 else 1
  | S754_finite s _ _ => if s then -1 else 1
  end.

Definition threeWay (c : option comparison) : Z :=
  match c with
  | Some Lt => -1
  | Some Gt => 1
  | _ => 0
  end.

Definition SFfinite (x : spec_float) : bool :=
  match x with
  | S754_zero _ => true
  | S754_finite _ _ _ => true
  | _ => false
  end.

(** ** What the specification asks of a comparer *)

(** Anti-symmetry: [compare(a, b) == -compare(b, a)]. *)
Definition ComparerAntisymmetric {T} (compare : Comparer T) : Prop :=
  forall a b, compare a b = - compare b a.

(** Reflexivity: [compare(a, a) == 0]. *)
Definition ComparerReflexive {T} (compare : Comparer T) : Prop :=
  forall a, compare a a = 0.

(** The same two properties of the host's string comparisons, read through
    [sign] as the library reads them. *)
Definition HostAntisymmetric `{Host} : Prop :=
  forall a b locales,
    sign (localeCompare a b locales) = - sign (localeCompare b a locales).

Definition HostReflexive `{Host} : Prop :=
  forall a locales, sign (localeCompare a a locales) = 0.

Definition CollatorAntisymmetric (collator : Collator) : Prop :=
  forall a b, sign (collate collator a b) = - sign (collate collator b a).

Definition CollatorReflexive (collator : Collator) : Prop :=
  forall a, sign (collate collator a a) = 0.

(** An array has at most [2^32 - 1] elements. *)
Definition maxArrayLength : Z := 2 ^ 32 - 1.

(** The order of the specification's "full numeric comparator": not-a-number
    values, then negative infinity, then the finite values, then positive
    infinity. *)
Definition numberRank (value : float) : Z :=
  if is_nan value then 0
  else if (value =? neg_infinity)%float then 1
  else if (value =? infinity)%float then 3
  else 2.

(** The three-way result of the order [<] on numbers. *)
Definition ascending (a b : float) : CompareResult :=
  if (a <? b)%float then -1 else if (b <? a)%float then 1 else 0.

(** The specification's tokens: "an alternating sequence of contiguous
    digit runs (converted to their integer values) and contiguous non-digit
    runs (kept as text)". *)
Definition matchText (m : RegExpMatch) : string :=
  match m with
  | digitRun text => text
  | otherRun text => text
  end.

Definition isDigitRun (m : RegExpMatch) : bool :=
  match m with
  | digitRun _ => true
  | otherRun _ => false
  end.

Fixpoint allChars (class : ascii -> bool) (s : string) : bool :=
  match s with
  | EmptyString => true
  | String c rest => class c && allChars class rest
  end.

(** A run is not empty and holds characters of one kind. *)
Definition wellFormedRun (m : RegExpMatch) : Prop :=
  matchText m <> EmptyString /\
  allChars (if isDigitRun m then isDigit else isNonDigit) (matchText m) = true.

(** Consecutive runs are of different kinds: each run is as long as it can be. *)
Fixpoint alternating (matches : list RegExpMatch) : Prop :=
  match matches with
  | m1 :: rest =>
      match rest with
      | m2 :: _ => isDigitRun m1 <> isDigitRun m2
      | [] => True
      end
      /\ alternating rest
  | [] => True
  end.

(** The runs, put one after the other. *)
Definition joinTexts (matches : list RegExpMatch) : string :=
  foldr (fun m acc => (matchText m ++ acc)%string) EmptyString matches.

(** The integer a string of decimal digits denotes. *)
Fixpoint digitsValue (s : string) : Z :=
  match s with
  | EmptyString => 0
  | String c rest =>
      (Z.of_nat (nat_of_ascii c) - 48) * 10 ^ Z.of_nat (String.length rest) + digitsValue rest
  end.

(** The specification's tokens once more, with nothing taken from the code.
    The decimal digits are the ten characters of ["0123456789"], and the
    value of a digit is its place in that string. *)
Definition decimalDigits : string := "0123456789".

Fixpoint placeIn (digits : string) (c : ascii) : option Z :=
  match digits with
  | EmptyString => None
  | String digit rest =>
      if Ascii.eqb c digit then Some 0 else option_map Z.succ (placeIn rest c)
  end.

Definition decimalDigitValue (c : ascii) : option Z := placeIn decimalDigits c.

Definition isDecimalDigit (c : ascii) : bool :=
  match decimalDigitValue c with
  | Some _ => true
  | None => false
  end.

(** The integer a run of decimal digits denotes, read from the left. *)
Fixpoint integerValueFrom (value : Z) (text : string) : Z :=
  match text with
  | EmptyString => value
  | String c rest =>
      match decimalDigitValue c with
      | Some digit => integerValueFrom (10 * value + digit) rest
      | None => integerValueFrom (10 * value) rest
      end
  end.

Definition integerValue (text : string) : Z := integerValueFrom 0 text.

(** The contiguous runs of a string, each as long as it can be: a run of
    decimal digits ([true]) or a run of other characters ([false]).  The runs
    are built from the end of the string: a character joins the run that
    follows it when it is of the same kind, and starts a new run otherwise. *)
Fixpoint specRuns (s : string) : list (bool * string) :=
  match s with
  | EmptyString => []
  | String c rest =>
      match specRuns rest with
      | (digits, text) :: runs =>
          if Bool.eqb (isDecimalDigit c) digits then (digits, String c text) :: runs
          else (isDecimalDigit c, String c EmptyString) :: (digits, text) :: runs
      | [] => [(isDecimalDigit c, String c EmptyString)]
      end
  end.

Inductive SpecToken : Type :=
  | integerToken (value : Z)
  | textToken (text : string).

Definition specTokenOfRun (run : bool * string) : SpecToken :=
  if fst run then integerToken (integerValue (snd run)) else textToken (snd run).

Definition specTokens (s : string) : list SpecToken := map specTokenOfRun (specRuns s).

(** A run is not empty and holds characters of its kind only. *)
Definition specRunWellFormed (run : bool * string) : Prop :=
  snd run <> EmptyString /\
  allChars (fun c => Bool.eqb (isDecimalDigit c) (fst run)) (snd run) = true.

(** Consecutive runs are of different kinds. *)
Fixpoint specRunsAlternate (runs : list (bool * string)) : Prop :=
  match runs with
  | run1 :: rest =>
      match rest with
      | run2 :: _ => fst run1 <> fst run2
      | [] => True
      end
      /\ specRunsAlternate rest
  | [] => True
  end.

Definition joinRuns (runs : list (bool * string)) : string :=
  foldr (fun run acc => (snd run ++ acc)%string) EmptyString runs.

(** The value the code's token has for a token of the specification: an
    integer becomes the number nearest to it (round to nearest, ties to even),
    which is the integer itself below [2^53]. *)
Definition numberOfToken (token : SpecToken) : NumberOrString :=
  match token with
  | integerToken value => num (number_of_Z value)
  | textToken text => str text
  end.

(** The run a match of the regular expression stands for. *)
Definition runOfMatch (m : RegExpMatch) : bool * string := (isDigitRun m, matchText m).

(** The index the specification gives an item of an ordering: that of its
    first occurrence ([Array.prototype.indexOf]), and the length of the
    ordering for an item that does not occur. *)
Fixpoint firstIndexOf `{EqDecision T} (ordering : list T) (item : T) : nat :=
  match ordering with
  | [] => O
  | x :: rest => if decide (x = item) then O else S (firstIndexOf rest item)
  end.

(** Groups for the examples: the negative numbers and the others, each with
    its comparer. *)
Definition signKey (value : float) : string :=
  if (value <? 0)%float then "negative"%string else "positive"%string.

(** The object literals [{ negative: compareNumber, positive: compareNumber }]
    and [{ negative: compareNumber, positive: invertComparer(compareNumber) }],
    with what the literal inherits from its prototype. *)
Definition ascendingGroups {TOther} (prototype : string -> option (Inherited float TOther)) :
    ComparerTable string float TOther :=
  {| entries := {[ "negative"%string := compareNumber; "positive"%string := compareNumber ]};
     inherited := prototype |}.

Definition mirroredGroups {TOther} (prototype : string -> option (Inherited float TOther)) :
    ComparerTable string float TOther :=
  {| entries := {[ "negative"%string := compareNumber;
                   "positive"%string := invertComparer compareNumber ]};
     inherited := prototype |}.

(** A prototype for the examples, with the one member [toString], which
    returns "[object Object]" whatever its arguments, as
    [Object.prototype.toString] does on a plain object. *)
Definition toStringPrototype {TValue} : string -> option (Inherited TValue string) :=
  fun key =>
    if decide (key = "toString"%string)
    then Some (inheritedFunction (fun _ _ => callReturnsOther "[object Object]"%string))
    else None.

(** The negation of a returned comparison result. *)
Definition oppositeOutcome {TOther} (outcome : Outcome TOther) : Outcome TOther :=
  match outcome with
  | returns result => returns (- result)
  | returnsOther value => returnsOther value
  | throws => throws
  end.

(** A host for the examples: strings ordered by code units. *)
Definition codeUnitHost : Host :=
  {| localeCompare := fun a b _ =>
       match String.compare a b with
       | Lt => (-1)%float
       | Eq => 0%float
       | Gt => 1%float
       end |}.

(** ** Further notions used to state what the code guarantees *)

(** "Does not sort after" is transitive; with anti-symmetry this makes the
    comparer a total preorder, which is what a sort routine needs. *)
Definition ComparerTransitive {T} (compare : Comparer T) : Prop :=
  forall a b c, compare a b <= 0 -> compare b c <= 0 -> compare a c <= 0.

Definition ComparerConsistent {T} (compare : Comparer T) : Prop :=
  ComparerAntisymmetric compare /\ ComparerTransitive compare.

(** The result is one of [-1], [0] and [1]. *)
Definition ComparerInRange {T} (compare : Comparer T) : Prop :=
  forall a b, compare a b = -1 \/ compare a b = 0 \/ compare a b = 1.

(** The value of a finite binary64 number, in units of the smallest
    subnormal ([2^-1074]); [0] for the other values. *)
Definition SFvalue (x : spec_float) : Z :=
  match x with
  | S754_finite s m e => cond_Zopp s (Z.pos m * 2 ^ (e + 1074))
  | _ => 0
  end.

(** The lexicographic order on lists, by structural recursion: the first
    items that differ decide, and a proper prefix comes first. *)
Fixpoint lexicographic {T} (itemComparer : Comparer T) (a b : list T) : CompareResult :=
  match a, b with
  | [], [] => 0
  | [], _ :: _ => -1
  | _ :: _, [] => 1
  | x :: a', y :: b' =>
      if negb (itemComparer x y =? 0) then itemComparer x y
      else lexicographic itemComparer a' b'
  end.

(** * Properties *)

(** ** Binary64 arithmetic

    What [sign(a - b)] computes: the facts below are derived from the
    specification of the primitive operations ([FloatAxioms]). *)
Lemma digits2_pos_bounds (m : positive) :
  2 ^ (Z.pos (digits2_pos m) - 1) <= Z.pos m < 2 ^ Z.pos (digits2_pos m).
Proof.
  induction m as [p IH | p IH |]; simpl digits2_pos.
  - rewrite Pos2Z.inj_succ, Z.pow_succ_r by lia.
    replace (Z.succ (Z.pos (digits2_pos p)) - 1) with (Z.succ (Z.pos (digits2_pos p) - 1)) by lia.
    rewrite Z.pow_succ_r by lia. lia.
  - rewrite Pos2Z.inj_succ, Z.pow_succ_r by lia.
    replace (Z.succ (Z.pos (digits2_pos p)) - 1) with (Z.succ (Z.pos (digits2_pos p) - 1)) by lia.
    rewrite Z.pow_succ_r by lia. lia.
  - simpl. lia.
Qed.

Lemma iter_xO_pow (m d : positive) :
  Z.pos (Pos.iter xO m d) = Z.pos m * 2 ^ Z.pos d.
Proof.
  induction d as [|d IHd] using Pos.peano_ind.
  - simpl. lia.
  - rewrite Pos.iter_succ, Pos2Z.inj_succ, Z.pow_succ_r by lia.
    rewrite Pos2Z.inj_xO, IHd. lia.
Qed.

Lemma shl_align_fst (mx : positive) (ex ez : Z) :
  ez <= ex -> Z.pos (fst (shl_align mx ex ez)) = Z.pos mx * 2 ^ (ex - ez).
Proof.
  intros Hle. unfold shl_align.
  destruct (ez - ex) as [|d|d] eqn:Hd; simpl fst.
  - replace (ex - ez) with 0 by lia. simpl. lia.
  - lia.
  - rewrite iter_xO_pow. f_equal. f_equal. lia.
Qed.

Lemma shr_1_m (r : shr_record) :
  0 <= shr_m r -> shr_m (shr_1 r) = Z.div2 (shr_m r).
Proof.
  destruct r as [m r s]. simpl. intros Hm.
  destruct m as [|[p|p|]|p]; simpl; try reflexivity; lia.
Qed.

Lemma pow2_xO (p : positive) : 2 ^ Z.pos p~0 = 2 ^ Z.pos p * 2 ^ Z.pos p.
Proof. rewrite <- Z.pow_add_r by lia. f_equal. lia. Qed.

Lemma pow2_xI (p : positive) : 2 ^ Z.pos p~1 = 2 * (2 ^ Z.pos p * 2 ^ Z.pos p).
Proof.
  rewrite <- Z.pow_add_r, <- Z.pow_succ_r by lia. f_equal. lia.
Qed.

Lemma iter_shr_1_m (p : positive) (r : shr_record) :
  0 <= shr_m r -> shr_m (SpecFloat.iter_pos shr_1 p r) = shr_m r / 2 ^ Z.pos p.
Proof.
  revert r. induction p as [p IH | p IH |]; intros r Hm; simpl SpecFloat.iter_pos.
  - assert (H1 : 0 <= shr_m (shr_1 r)) by (rewrite shr_1_m, Z.div2_div by lia; apply Z.div_pos; lia).
    assert (H2 : 0 <= shr_m (SpecFloat.iter_pos shr_1 p (shr_1 r))) by (rewrite IH by lia; apply Z.div_pos; lia).
    rewrite IH, IH, shr_1_m, Z.div2_div by lia.
    rewrite !Z.div_div by lia.
    f_equal. rewrite pow2_xI. lia.
  - assert (H2 : 0 <= shr_m (SpecFloat.iter_pos shr_1 p r)) by (rewrite IH by lia; apply Z.div_pos; lia).
    rewrite IH, IH by lia.
    rewrite !Z.div_div by lia.
    f_equal. rewrite pow2_xO. lia.
  - rewrite shr_1_m, Z.div2_div by lia. reflexivity.
Qed.

(** Binary64: [prec = 53], [emax = 1024], [emin = -1074]. *)
Lemma fexp_eq (e : Z) : fexp prec emax e = Z.max (e - 53) (-1074).
Proof. reflexivity. Qed.

Lemma canonical_mantissa_inv (m : positive) (e : Z) :
  canonical_mantissa prec emax m e = true ->
  -1074 <= e /\ Z.pos (digits2_pos m) <= 53 /\ (-1074 < e -> Z.pos (digits2_pos m) = 53).
Proof.
  unfold canonical_mantissa. rewrite fexp_eq. intros H%Z.eqb_eq. lia.
Qed.

Lemma shr_fexp_positive (m : positive) (e : Z) (l : location) :
  -1074 <= e ->
  1 <= shr_m (fst (shr_fexp prec emax (Z.pos m) e l)) /\
  -1074 <= snd (shr_fexp prec emax (Z.pos m) e l).
Proof.
  intros He. unfold shr_fexp. rewrite fexp_eq. simpl Zdigits2.
  assert (Hrec : shr_m (shr_record_of_loc (Z.pos m) l) = Z.pos m)
    by (destruct l as [|[| |]]; reflexivity).
  pose proof (digits2_pos_bounds m) as [Hlo Hhi].
  unfold shr.
  destruct (Z.max (Z.pos (digits2_pos m) + e - 53) (-1074) - e) as [|p|p] eqn:Hn; simpl fst; simpl snd.
  - rewrite Hrec. lia.
  - rewrite iter_shr_1_m by (rewrite Hrec; lia). rewrite Hrec. split; [|lia].
    assert (Hp : Z.pos p <= Z.pos (digits2_pos m) - 1) by lia.
    assert (2 ^ Z.pos p <= 2 ^ (Z.pos (digits2_pos m) - 1)) by (apply Z.pow_le_mono_r; lia).
    apply Z.div_le_lower_bound; lia.
  - rewrite Hrec. lia.
Qed.

Lemma round_nearest_even_ge (m : Z) (l : location) : m <= round_nearest_even m l.
Proof.
  unfold round_nearest_even. destruct l as [|[| |]]; try lia.
  destruct (Z.even m); lia.
Qed.

Lemma binary_round_aux_sign (s : bool) (m : positive) (e : Z) (l : location) :
  -1074 <= e -> SFsign (binary_round_aux prec emax s (Z.pos m) e l) = if s then -1 else 1.
Proof.
  intros He. unfold binary_round_aux.
  pose proof (shr_fexp_positive m e l He) as [H1 H2].
  destruct (shr_fexp prec emax (Z.pos m) e l) as [mrs' e']. simpl fst in H1. simpl snd in H2.
  pose proof (round_nearest_even_ge (shr_m mrs') (loc_of_shr_record mrs')) as Hr.
  destruct (round_nearest_even (shr_m mrs') (loc_of_shr_record mrs')) as [|m'|m'] eqn:Hm'; try lia.
  pose proof (shr_fexp_positive m' e' loc_Exact H2) as [H3 H4].
  destruct (shr_fexp prec emax (Z.pos m') e' loc_Exact) as [mrs'' e'']. simpl fst in H3.
  destruct (shr_m mrs'') as [|m''|m'']; try lia.
  destruct (e'' <=? emax - prec); reflexivity.
Qed.

Lemma binary_round_sign (s : bool) (m : positive) (e : Z) :
  -1074 <= e -> SFsign (binary_round prec emax s m e) = if s then -1 else 1.
Proof.
  intros He. unfold binary_round.
  destruct (shl_align m e (fexp prec emax (Z.pos (digits2_pos m) + e))) as [mz ez] eqn:Hal.
  apply binary_round_aux_sign.
  unfold shl_align in Hal. rewrite fexp_eq in Hal.
  destruct (Z.max (Z.pos (digits2_pos m) + e - 53) (-1074) - e); inversion Hal; lia.
Qed.

Lemma binary_normalize_sign (m e : Z) (szero : bool) :
  -1074 <= e -> SFsign (binary_normalize prec emax m e szero) = Z.sgn m.
Proof.
  intros He. destruct m as [|p|p]; simpl binary_normalize.
  - reflexivity.
  - now rewrite binary_round_sign.
  - now rewrite binary_round_sign.
Qed.

Lemma canonical_lt_exponent (mx my : positive) (ex ey : Z) :
  canonical_mantissa prec emax mx ex = true ->
  canonical_mantissa prec emax my ey = true ->
  ex < ey -> Z.pos mx < Z.pos my * 2 ^ (ey - ex).
Proof.
  intros (Hex & Hdx & _)%canonical_mantissa_inv (Hey & _ & Hdy)%canonical_mantissa_inv Hlt.
  pose proof (digits2_pos_bounds mx) as [_ Hx].
  pose proof (digits2_pos_bounds my) as [Hy _].
  rewrite Hdy in Hy by lia.
  assert (H1 : 2 ^ Z.pos (digits2_pos mx) <= 2 ^ 53) by (apply Z.pow_le_mono_r; lia).
  assert (H2 : 2 ^ 1 <= 2 ^ (ey - ex)) by (apply Z.pow_le_mono_r; lia).
  change (2 ^ 1) with 2 in H2.
  change (2 ^ (53 - 1)) with 4503599627370496 in Hy.
  change (2 ^ 53) with 9007199254740992 in H1.
  nia.
Qed.

Lemma SFsub_sign (x y : spec_float) :
  valid_binary x = true -> valid_binary y = true ->
  SFfinite x = true -> SFfinite y = true ->
  SFsign (SFsub prec emax x y) = threeWay (SFcompare x y).
Proof.
  destruct x as [sx|sx| |sx mx ex], y as [sy|sy| |sy my ey]; try discriminate;
    intros Vx Vy _ _.
  - destruct sx, sy; reflexivity.
  - destruct sy; reflexivity.
  - destruct sx; reflexivity.
  - simpl in Vx, Vy. unfold bounded in Vx, Vy.
    apply andb_true_iff in Vx as [Cx _]. apply andb_true_iff in Vy as [Cy _].
    pose proof (canonical_mantissa_inv _ _ Cx) as (Hex & _).
    pose proof (canonical_mantissa_inv _ _ Cy) as (Hey & _).
    unfold SFsub. rewrite binary_normalize_sign by lia.
    rewrite !shl_align_fst by lia.
    pose proof (Pos2Z.is_pos mx) as Px. pose proof (Pos2Z.is_pos my) as Py.
    unfold SFcompare.
    destruct (Z.compare_spec ex ey) as [Heq | Hlt | Hgt].
    + subst ey. rewrite Z.min_id, Z.sub_diag, !Z.mul_1_r.
      change (Pos.compare_cont Eq mx my) with (Pos.compare mx my).
      destruct (Pos.compare_spec mx my) as [Hm | Hm | Hm];
        destruct sx, sy; simpl cond_Zopp; simpl threeWay;
        first [ apply Z.sgn_null_iff | apply Z.sgn_pos_iff | apply Z.sgn_neg_iff ]; lia.
    + pose proof (canonical_lt_exponent _ _ _ _ Cx Cy Hlt) as Hv.
      rewrite Z.min_l by lia. rewrite Z.sub_diag, Z.mul_1_r.
      assert (0 < 2 ^ (ey - ex)) by (apply Z.pow_pos_nonneg; lia).
      destruct sx, sy; simpl cond_Zopp; simpl threeWay;
        first [ apply Z.sgn_pos_iff | apply Z.sgn_neg_iff ]; nia.
    + pose proof (canonical_lt_exponent _ _ _ _ Cy Cx ltac:(lia)) as Hv.
      rewrite Z.min_r by lia. rewrite Z.sub_diag, Z.mul_1_r.
      assert (0 < 2 ^ (ex - ey)) by (apply Z.pow_pos_nonneg; lia).
      destruct sx, sy; simpl cond_Zopp; simpl threeWay;
        first [ apply Z.sgn_pos_iff | apply Z.sgn_neg_iff ]; nia.
Qed.

Lemma Prim2SF_zero : Prim2SF 0 = S754_zero false.
Proof. reflexivity. Qed.

Lemma Prim2SF_infinity : Prim2SF infinity = S754_infinity false.
Proof. reflexivity. Qed.

Lemma Prim2SF_neg_infinity : Prim2SF neg_infinity = S754_infinity true.
Proof. reflexivity. Qed.

Lemma SFcompare_refl (x : spec_float) :
  SFcompare x x = match x with S754_nan => None | _ => Some Eq end.
Proof.
  destruct x as [s|s| |s m e]; simpl; try reflexivity; try (destruct s; reflexivity).
  change (IntDef.Z.compare e e) with (Z.compare e e). rewrite Z.compare_refl.
  change (PosDef.Pos.compare_cont Eq m m) with (Pos.compare_cont Eq m m).
  rewrite Pos.compare_cont_refl. destruct s; reflexivity.
Qed.

Lemma SFcompare_antisym (x y : spec_float) :
  SFcompare y x = option_map CompOpp (SFcompare x y).
Proof.
  destruct x as [sx|sx| |sx mx ex], y as [sy|sy| |sy my ey]; simpl;
    try reflexivity; try (destruct sx; reflexivity); try (destruct sy; reflexivity);
    try (destruct sx, sy; reflexivity).
  change (IntDef.Z.compare ey ex) with (Z.compare ey ex).
  change (IntDef.Z.compare ex ey) with (Z.compare ex ey).
  rewrite (Z.compare_antisym ex ey).
  change (PosDef.Pos.compare_cont Eq my mx) with (Pos.compare_cont (CompOpp Eq) my mx).
  rewrite <- (Pos.compare_cont_antisym mx my Eq).
  change (PosDef.Pos.compare_cont Eq mx my) with (Pos.compare_cont Eq mx my).
  destruct sx, sy, (ex ?= ey), (Pos.compare_cont Eq mx my); reflexivity.
Qed.

Lemma sign_spec (value : float) : sign value = SFsign (Prim2SF value).
Proof.
  unfold sign. rewrite !FloatAxioms.ltb_spec, Prim2SF_zero. unfold SFltb.
  destruct (Prim2SF value) as [s|s| |s m e]; simpl; try destruct s; reflexivity.
Qed.

Lemma is_nan_spec (value : float) :
  is_nan value = match Prim2SF value with S754_nan => true | _ => false end.
Proof.
  unfold is_nan. rewrite FloatAxioms.eqb_spec. unfold SFeqb. rewrite SFcompare_refl.
  destruct (Prim2SF value); reflexivity.
Qed.

Lemma is_infinity_spec (value : float) :
  is_infinity value = match Prim2SF value with S754_infinity _ => true | _ => false end.
Proof.
  unfold is_infinity. rewrite FloatAxioms.eqb_spec, abs_spec, Prim2SF_infinity.
  destruct (Prim2SF value) as [s|s| |s m e]; reflexivity.
Qed.

Lemma is_finite_spec (value : float) : is_finite value = SFfinite (Prim2SF value).
Proof.
  unfold is_finite. rewrite is_nan_spec, is_infinity_spec.
  destruct (Prim2SF value); reflexivity.
Qed.

Lemma eqb_infinity_spec (value : float) :
  (value =? infinity)%float =
  match Prim2SF value with S754_infinity false => true | _ => false end.
Proof.
  rewrite FloatAxioms.eqb_spec, Prim2SF_infinity.
  destruct (Prim2SF value) as [s|s| |s m e]; try destruct s; reflexivity.
Qed.

Lemma eqb_neg_infinity_spec (value : float) :
  (value =? neg_infinity)%float =
  match Prim2SF value with S754_infinity true => true | _ => false end.
Proof.
  rewrite FloatAxioms.eqb_spec, Prim2SF_neg_infinity.
  destruct (Prim2SF value) as [s|s| |s m e]; try destruct s; reflexivity.
Qed.

(** The sign of the rounded difference of two finite numbers is their order. *)
Lemma sign_sub_finite (a b : float) :
  is_finite a = true -> is_finite b = true ->
  sign (a - b) = threeWay (SFcompare (Prim2SF a) (Prim2SF b)).
Proof.
  rewrite !is_finite_spec. intros Ha Hb.
  rewrite sign_spec, FloatAxioms.sub_spec. apply SFsub_sign; auto using Prim2SF_valid.
Qed.

Lemma threeWay_antisym (x y : spec_float) :
  threeWay (SFcompare y x) = - threeWay (SFcompare x y).
Proof.
  rewrite SFcompare_antisym. destruct (SFcompare x y) as [[| |]|]; reflexivity.
Qed.

(** *** Integers below [2^53] are numbers, and keep their order *)

Lemma digits2_pos_iter_xO (m k : positive) :
  Z.pos (digits2_pos (Pos.iter xO m k)) = Z.pos (digits2_pos m) + Z.pos k.
Proof.
  induction k as [|k IHk] using Pos.peano_ind.
  - simpl. lia.
  - rewrite Pos.iter_succ. simpl digits2_pos. lia.
Qed.

Lemma digits2_pos_le_53 (m : positive) :
  Z.pos m < 2 ^ 53 -> Z.pos (digits2_pos m) <= 53.
Proof.
  intros Hm. pose proof (digits2_pos_bounds m) as [Hlo _].
  destruct (Z.le_gt_cases (Z.pos (digits2_pos m)) 53) as [|Hgt]; [assumption|].
  assert (2 ^ 53 <= 2 ^ (Z.pos (digits2_pos m) - 1)) by (apply Z.pow_le_mono_r; lia). lia.
Qed.

Lemma binary_round_aux_canonical (s : bool) (m : positive) (e : Z) :
  canonical_mantissa prec emax m e = true -> e <= 971 ->
  binary_round_aux prec emax s (Z.pos m) e loc_Exact = S754_finite s m e.
Proof.
  intros Hc He. unfold canonical_mantissa in Hc. apply Z.eqb_eq in Hc.
  unfold binary_round_aux, shr_fexp. simpl Zdigits2. rewrite Hc, Z.sub_diag. simpl.
  rewrite Hc, Z.sub_diag. simpl.
  change (emax - prec) with 971.
  destruct (Z.leb_spec e 971); [reflexivity | lia].
Qed.

Lemma binary_round_integer (m : positive) :
  Z.pos m < 2 ^ 53 ->
  exists mz : positive,
    binary_round prec emax false m 0 = S754_finite false mz (Z.pos (digits2_pos m) - 53) /\
    Z.pos mz = Z.pos m * 2 ^ (53 - Z.pos (digits2_pos m)) /\
    canonical_mantissa prec emax mz (Z.pos (digits2_pos m) - 53) = true.
Proof.
  intros Hm. pose proof (digits2_pos_le_53 m Hm) as Hd.
  unfold binary_round. rewrite fexp_eq, Z.add_0_r, Z.max_l by lia.
  unfold shl_align.
  destruct (Z.pos (digits2_pos m) - 53 - 0) as [|k|k] eqn:Hk; try lia.
  - assert (Hc : canonical_mantissa prec emax m 0 = true).
    { unfold canonical_mantissa. rewrite fexp_eq. apply Z.eqb_eq. lia. }
    exists m. replace (Z.pos (digits2_pos m) - 53) with 0 by lia.
    rewrite binary_round_aux_canonical by (assumption || lia).
    replace (53 - Z.pos (digits2_pos m)) with 0 by lia. simpl. split; [reflexivity | split; [lia | assumption]].
  - assert (Hc : canonical_mantissa prec emax (Pos.iter xO m k) (Z.pos (digits2_pos m) - 53) = true).
    { unfold canonical_mantissa. rewrite fexp_eq, digits2_pos_iter_xO. apply Z.eqb_eq. lia. }
    exists (Pos.iter xO m k).
    rewrite binary_round_aux_canonical by (assumption || lia).
    split; [reflexivity | split; [|assumption]].
    rewrite iter_xO_pow. f_equal. f_equal. lia.
Qed.

Lemma Prim2SF_number_of_Z_pos (m : positive) :
  Z.pos m < 2 ^ 53 ->
  exists mz : positive,
    Prim2SF (number_of_Z (Z.pos m)) = S754_finite false mz (Z.pos (digits2_pos m) - 53) /\
    Z.pos mz = Z.pos m * 2 ^ (53 - Z.pos (digits2_pos m)).
Proof.
  intros Hm. destruct (binary_round_integer m Hm) as (mz & Hr & Hv & Hc).
  exists mz. split; [|assumption].
  unfold number_of_Z. simpl binary_normalize. rewrite Hr.
  apply Prim2SF_SF2Prim. simpl. unfold bounded. rewrite Hc. simpl.
  pose proof (digits2_pos_le_53 m Hm) as Hd.
  apply Z.leb_le. unfold emax, prec. lia.
Qed.

Lemma Prim2SF_number_of_Z_zero : Prim2SF (number_of_Z 0) = S754_zero false.
Proof. reflexivity. Qed.

Lemma is_finite_number_of_Z (z : Z) : 0 <= z < 2 ^ 53 -> is_finite (number_of_Z z) = true.
Proof.
  intros Hz. rewrite is_finite_spec. destruct z as [|m|m]; try lia.
  - reflexivity.
  - destruct (Prim2SF_number_of_Z_pos m) as (mz & -> & _); [lia | reflexivity].
Qed.

Lemma SFcompare_number_of_Z_lt (n m : Z) :
  0 <= n -> n < m -> m < 2 ^ 53 ->
  SFcompare (Prim2SF (number_of_Z n)) (Prim2SF (number_of_Z m)) = Some Lt.
Proof.
  intros Hn Hnm Hm. destruct m as [|q|q]; try lia.
  destruct (Prim2SF_number_of_Z_pos q Hm) as (qz & -> & Hq).
  destruct n as [|p|p]; try lia.
  - rewrite Prim2SF_number_of_Z_zero. reflexivity.
  - destruct (Prim2SF_number_of_Z_pos p) as (pz & -> & Hp); [lia|].
    pose proof (digits2_pos_bounds p) as [Hplo Hphi].
    pose proof (digits2_pos_bounds q) as [Hqlo Hqhi].
    assert (Hd : Z.pos (digits2_pos p) <= Z.pos (digits2_pos q)).
    { destruct (Z.le_gt_cases (Z.pos (digits2_pos p)) (Z.pos (digits2_pos q))) as [|Hgt]; [assumption|].
      assert (2 ^ Z.pos (digits2_pos q) <= 2 ^ (Z.pos (digits2_pos p) - 1))
        by (apply Z.pow_le_mono_r; lia).
      lia. }
    unfold SFcompare.
    destruct (Z.compare_spec (Z.pos (digits2_pos p) - 53) (Z.pos (digits2_pos q) - 53))
      as [Heq | Hlt | Hgt]; try reflexivity; try lia.
    change (Pos.compare_cont Eq pz qz) with (Pos.compare pz qz).
    assert (Hdq : Z.pos (digits2_pos p) = Z.pos (digits2_pos q)) by lia.
    rewrite Hdq in Hp.
    pose proof (digits2_pos_le_53 q Hm) as Hq53.
    assert (0 < 2 ^ (53 - Z.pos (digits2_pos q))) by (apply Z.pow_pos_nonneg; lia).
    destruct (Pos.compare_spec pz qz) as [He | Hl | Hg]; try reflexivity; nia.
Qed.

(** The comparison of two integers below [2^53], read as numbers. *)
Lemma threeWay_number_of_Z (n m : Z) :
  0 <= n < 2 ^ 53 -> 0 <= m < 2 ^ 53 ->
  threeWay (SFcompare (Prim2SF (number_of_Z n)) (Prim2SF (number_of_Z m))) = Z.sgn (n - m).
Proof.
  intros Hn Hm. destruct (Z.lt_total n m) as [Hlt | [Heq | Hgt]].
  - rewrite SFcompare_number_of_Z_lt by lia. symmetry. apply Z.sgn_neg_iff. lia.
  - subst m. rewrite Z.sub_diag, SFcompare_refl.
    pose proof (is_finite_number_of_Z n Hn) as Hf. rewrite is_finite_spec in Hf.
    destruct (Prim2SF (number_of_Z n)); try discriminate; reflexivity.
  - rewrite threeWay_antisym, SFcompare_number_of_Z_lt by lia. symmetry. apply Z.sgn_pos_iff. lia.
Qed.

Lemma sign_sub_number_of_Z (n m : Z) :
  0 <= n < 2 ^ 53 -> 0 <= m < 2 ^ 53 ->
  sign (number_of_Z n - number_of_Z m) = Z.sgn (n - m).
Proof.
  intros Hn Hm.
  rewrite sign_sub_finite by (apply is_finite_number_of_Z; assumption).
  now apply threeWay_number_of_Z.
Qed.

(** [x - y] and [y - x] round to opposite values, and [x - x] is a zero or
    NaN, whatever the numbers. *)
Lemma SFsub_sign_antisym (x y : spec_float) :
  valid_binary x = true -> valid_binary y = true ->
  SFsign (SFsub prec emax y x) = - SFsign (SFsub prec emax x y).
Proof.
  intros Vx Vy.
  destruct x as [sx|sx| |sx mx ex] eqn:Hx, y as [sy|sy| |sy my ey] eqn:Hy;
    try (destruct sx; reflexivity); try (destruct sy; reflexivity);
    try (destruct sx, sy; reflexivity); try reflexivity.
  rewrite !SFsub_sign by (assumption || reflexivity). apply threeWay_antisym.
Qed.

Lemma sign_sub_antisym (a b : float) : sign (b - a) = - sign (a - b).
Proof.
  rewrite !sign_spec, !FloatAxioms.sub_spec.
  apply SFsub_sign_antisym; apply Prim2SF_valid.
Qed.

Lemma sign_sub_diag (a : float) : sign (a - a) = 0.
Proof. pose proof (sign_sub_antisym a a). lia. Qed.

Lemma ascending_spec (a b : float) :
  ascending a b = threeWay (SFcompare (Prim2SF a) (Prim2SF b)).
Proof.
  unfold ascending. rewrite !FloatAxioms.ltb_spec. unfold SFltb.
  rewrite (SFcompare_antisym (Prim2SF a) (Prim2SF b)).
  destruct (SFcompare (Prim2SF a) (Prim2SF b)) as [[| |]|]; reflexivity.
Qed.

(** ** The primitive comparers *)

Lemma compareFiniteNumber_finite (a b : float) :
  is_finite a = true -> is_finite b = true -> compareFiniteNumber a b = ascending a b.
Proof.
  intros Ha Hb. unfold compareFiniteNumber, isFinite. rewrite Ha, Hb. simpl.
  rewrite ascending_spec. now apply sign_sub_finite.
Qed.

Lemma compareFiniteNumber_antisym : ComparerAntisymmetric compareFiniteNumber.
Proof.
  intros a b. unfold compareFiniteNumber.
  rewrite (andb_comm (isFinite b)).
  destruct (isFinite a && isFinite b); [apply sign_sub_antisym | reflexivity].
Qed.

Lemma compareFiniteNumber_refl : ComparerReflexive compareFiniteNumber.
Proof.
  intros a. unfold compareFiniteNumber.
  destruct (isFinite a && isFinite a); [apply sign_sub_diag | reflexivity].
Qed.

Lemma compareBoolean_antisym : ComparerAntisymmetric compareBoolean.
Proof. intros [] []; reflexivity. Qed.

Lemma compareBoolean_refl : ComparerReflexive compareBoolean.
Proof. intros []; reflexivity. Qed.

Lemma compareEqual_antisym {T} : ComparerAntisymmetric (@compareEqual T).
Proof. intros a b. reflexivity. Qed.

Lemma compareEqual_refl {T} : ComparerReflexive (@compareEqual T).
Proof. intros a. reflexivity. Qed.

(** ** The combinators *)

Section Combinators.
Context {T : Type}.

Lemma conditionFirstComparer_cases (condition : T -> bool)
    (trueComparer falseComparer : Comparer T) (a b : T) :
  conditionFirstComparer condition trueComparer falseComparer a b =
  match condition a, condition b with
  | true, true => trueComparer a b
  | true, false => -1
  | false, true => 1
  | false, false => falseComparer a b
  end.
Proof.
  unfold conditionFirstComparer. destruct (condition a), (condition b); reflexivity.
Qed.

Lemma conditionTypeFirstComparer_cases (condition : T -> bool)
    (trueComparer falseComparer : Comparer T) (a b : T) :
  conditionTypeFirstComparer condition trueComparer falseComparer a b =
  match condition a, condition b with
  | true, true => trueComparer a b
  | true, false => -1
  | false, true => 1
  | false, false => falseComparer a b
  end.
Proof.
  unfold conditionTypeFirstComparer. destruct (condition a), (condition b); reflexivity.
Qed.

Lemma conditionFirstComparer_antisym (condition : T -> bool)
    (trueComparer falseComparer : Comparer T) :
  ComparerAntisymmetric trueComparer -> ComparerAntisymmetric falseComparer ->
  ComparerAntisymmetric (conditionFirstComparer condition trueComparer falseComparer).
Proof.
  intros Ht Hf a b. rewrite !conditionFirstComparer_cases.
  destruct (condition a), (condition b); auto.
Qed.

Lemma conditionFirstComparer_refl (condition : T -> bool)
    (trueComparer falseComparer : Comparer T) :
  ComparerReflexive trueComparer -> ComparerReflexive falseComparer ->
  ComparerReflexive (conditionFirstComparer condition trueComparer falseComparer).
Proof.
  intros Ht Hf a. rewrite conditionFirstComparer_cases.
  destruct (condition a); auto.
Qed.

(** For the type guard the sub-comparers only matter where they are called:
    [trueComparer] on values that pass the guard, [falseComparer] on values
    that fail it. *)
Lemma conditionTypeFirstComparer_antisym (condition : T -> bool)
    (trueComparer falseComparer : Comparer T) :
  (forall a b, condition a = true -> condition b = true ->
               trueComparer a b = - trueComparer b a) ->
  (forall a b, condition a = false -> condition b = false ->
               falseComparer a b = - falseComparer b a) ->
  ComparerAntisymmetric (conditionTypeFirstComparer condition trueComparer falseComparer).
Proof.
  intros Ht Hf a b. rewrite !conditionTypeFirstComparer_cases.
  destruct (condition a) eqn:Ha, (condition b) eqn:Hb; auto.
Qed.

Lemma conditionTypeFirstComparer_refl (condition : T -> bool)
    (trueComparer falseComparer : Comparer T) :
  (forall a, condition a = true -> trueComparer a a = 0) ->
  (forall a, condition a = false -> falseComparer a a = 0) ->
  ComparerReflexive (conditionTypeFirstComparer condition trueComparer falseComparer).
Proof.
  intros Ht Hf a. rewrite conditionTypeFirstComparer_cases.
  destruct (condition a) eqn:Ha; auto.
Qed.

Lemma constFirstComparer_antisym (strictEquals : T -> T -> bool) (value : T) :
  ComparerAntisymmetric (constFirstComparer strictEquals value).
Proof. apply conditionFirstComparer_antisym; apply compareEqual_antisym. Qed.

Lemma constFirstComparer_refl (strictEquals : T -> T -> bool) (value : T) :
  ComparerReflexive (constFirstComparer strictEquals value).
Proof. apply conditionFirstComparer_refl; apply compareEqual_refl. Qed.

Lemma invertComparer_antisym (comparer : Comparer T) :
  ComparerAntisymmetric comparer -> ComparerAntisymmetric (invertComparer comparer).
Proof. intros Hc a b. unfold invertComparer. apply Hc. Qed.

Lemma invertComparer_refl (comparer : Comparer T) :
  ComparerReflexive comparer -> ComparerReflexive (invertComparer comparer).
Proof. intros Hc a. apply Hc. Qed.

Lemma chainComparers_antisym (comparers : list (Comparer T)) :
  Forall ComparerAntisymmetric comparers ->
  ComparerAntisymmetric (chainComparers comparers).
Proof.
  intros Hall a b. induction Hall as [|comparer rest Hc _ IH]; simpl.
  - reflexivity.
  - rewrite (Hc a b), IH.
    destruct (Z.eqb_spec (comparer b a) 0) as [-> | Hne]; simpl.
    + reflexivity.
    + destruct (Z.eqb_spec (- comparer b a) 0); [lia | reflexivity].
Qed.

Lemma chainComparers_refl (comparers : list (Comparer T)) :
  Forall ComparerReflexive comparers -> ComparerReflexive (chainComparers comparers).
Proof.
  intros Hall a. induction Hall as [|comparer rest Hc _ IH]; simpl.
  - reflexivity.
  - rewrite (Hc a). simpl. exact IH.
Qed.

Lemma mapComparer_antisym {TOut} (comparer : Comparer TOut) (mapper : T -> TOut) :
  ComparerAntisymmetric comparer -> ComparerAntisymmetric (mapComparer comparer mapper).
Proof. intros Hc a b. apply Hc. Qed.

Lemma mapComparer_refl {TOut} (comparer : Comparer TOut) (mapper : T -> TOut) :
  ComparerReflexive comparer -> ComparerReflexive (mapComparer comparer mapper).
Proof. intros Hc a. apply Hc. Qed.
End Combinators.

(** ** [compareNumber] *)

Lemma compareNanFirst_antisym : ComparerAntisymmetric compareNanFirst.
Proof. apply conditionFirstComparer_antisym; apply compareEqual_antisym. Qed.

Lemma compareNanFirst_refl : ComparerReflexive compareNanFirst.
Proof. apply conditionFirstComparer_refl; apply compareEqual_refl. Qed.

Lemma compareNumber_antisym : ComparerAntisymmetric compareNumber.
Proof.
  apply chainComparers_antisym. repeat constructor.
  - apply compareNanFirst_antisym.
  - apply constFirstComparer_antisym.
  - apply invertComparer_antisym, constFirstComparer_antisym.
  - apply compareFiniteNumber_antisym.
Qed.

Lemma compareNumber_refl : ComparerReflexive compareNumber.
Proof.
  apply chainComparers_refl. repeat constructor.
  - apply compareNanFirst_refl.
  - apply constFirstComparer_refl.
  - apply invertComparer_refl, constFirstComparer_refl.
  - apply compareFiniteNumber_refl.
Qed.

(** [compareNumber] orders by rank, and within the finite numbers by [<]. *)
Lemma compareNumber_rank (a b : float) :
  compareNumber a b =
  match numberRank a ?= numberRank b with
  | Lt => -1
  | Gt => 1
  | Eq => if numberRank a =? 2 then ascending a b else 0
  end.
Proof.
  destruct (is_finite a && is_finite b) eqn:Hfin.
  - apply andb_true_iff in Hfin as [Ha Hb].
    pose proof (compareFiniteNumber_finite a b Ha Hb) as Hcmp.
    rewrite ascending_spec in *.
    unfold compareNumber, chainComparers, compareNanFirst, compareNegativeInfinityFirst,
      comparePositiveInfinityFirst, invertComparer, constFirstComparer,
      conditionFirstComparer, compareEqual, isNaN, numberRank.
    rewrite Hcmp. rewrite is_finite_spec in Ha, Hb.
    rewrite !is_nan_spec, !eqb_neg_infinity_spec, !eqb_infinity_spec.
    generalize (threeWay (SFcompare (Prim2SF a) (Prim2SF b))). intros z.
    destruct (Prim2SF a) as [sa|sa| |sa ma ea], (Prim2SF b) as [sb|sb| |sb mb eb];
      try discriminate; simpl;
      destruct (Z.eqb_spec z 0) as [-> | Hz]; reflexivity.
  - unfold compareNumber, chainComparers, compareNanFirst, compareNegativeInfinityFirst,
      comparePositiveInfinityFirst, invertComparer, constFirstComparer,
      conditionFirstComparer, compareEqual, compareFiniteNumber, isNaN, isFinite, numberRank.
    rewrite Hfin. rewrite !is_finite_spec in Hfin.
    rewrite !is_nan_spec, !eqb_neg_infinity_spec, !eqb_infinity_spec.
    destruct (Prim2SF a) as [sa|sa| |sa ma ea], (Prim2SF b) as [sb|sb| |sb mb eb];
      try discriminate; try destruct sa; try destruct sb; reflexivity.
Qed.

(** Lengths and indices: [compareNumber] on integers below [2^53]. *)
Lemma numberRank_finite (a : float) : is_finite a = true -> numberRank a = 2.
Proof.
  rewrite is_finite_spec. unfold numberRank.
  rewrite is_nan_spec, eqb_neg_infinity_spec, eqb_infinity_spec.
  destruct (Prim2SF a); try discriminate; reflexivity.
Qed.

Lemma compareNumber_number_of_Z (n m : Z) :
  0 <= n < 2 ^ 53 -> 0 <= m < 2 ^ 53 ->
  compareNumber (number_of_Z n) (number_of_Z m) = Z.sgn (n - m).
Proof.
  intros Hn Hm. rewrite compareNumber_rank.
  rewrite !numberRank_finite by (apply is_finite_number_of_Z; assumption). simpl.
  rewrite ascending_spec. now apply threeWay_number_of_Z.
Qed.

(** ** [arrayComparer] *)

Section ArrayComparer.
Context {T : Type} (itemComparer : Comparer T).

Lemma arrayComparerFrom_first_nonzero (a b : list T) (i : nat) (x y : T) :
  a !! i = Some x -> b !! i = Some y -> itemComparer x y <> 0 ->
  (forall j xj yj, (j < i)%nat -> a !! j = Some xj -> b !! j = Some yj ->
                   itemComparer xj yj = 0) ->
  forall remaining index,
    (index + remaining = Nat.min (length a) (length b))%nat -> (index <= i)%nat ->
    arrayComparerFrom itemComparer remaining index a b = itemComparer x y.
Proof.
  intros Ha Hb Hne Hzero.
  pose proof (lookup_lt_Some _ _ _ Ha) as Hia.
  pose proof (lookup_lt_Some _ _ _ Hb) as Hib.
  induction remaining as [|remaining IH]; intros index Hsum Hle.
  - lia.
  - simpl.
    destruct (a !! index) as [xi|] eqn:Hxi;
      [| apply lookup_ge_None in Hxi; lia].
    destruct (b !! index) as [yi|] eqn:Hyi;
      [| apply lookup_ge_None in Hyi; lia].
    destruct (Nat.eq_dec index i) as [-> | Hneq].
    + rewrite Ha in Hxi. rewrite Hb in Hyi. inversion Hxi; inversion Hyi; subst.
      destruct (Z.eqb_spec (itemComparer xi yi) 0); [contradiction | reflexivity].
    + rewrite (Hzero index xi yi) by (assumption || lia). simpl.
      apply IH; lia.
Qed.

Lemma arrayComparerFrom_all_zero (a b : list T) :
  (forall j xj yj, a !! j = Some xj -> b !! j = Some yj -> itemComparer xj yj = 0) ->
  forall remaining index,
    arrayComparerFrom itemComparer remaining index a b =
    compareNumber (number_of_nat (length a)) (number_of_nat (length b)).
Proof.
  intros Hzero. induction remaining as [|remaining IH]; intros index; simpl.
  - reflexivity.
  - destruct (a !! index) as [xi|] eqn:Hxi; [|reflexivity].
    destruct (b !! index) as [yi|] eqn:Hyi; [|reflexivity].
    rewrite (Hzero index xi yi) by assumption. simpl. apply IH.
Qed.

Lemma arrayComparerFrom_antisym (a b : list T) :
  ComparerAntisymmetric itemComparer ->
  forall remaining index,
    arrayComparerFrom itemComparer remaining index a b =
    - arrayComparerFrom itemComparer remaining index b a.
Proof.
  intros Hc. induction remaining as [|remaining IH]; intros index; simpl.
  - apply compareNumber_antisym.
  - destruct (a !! index) as [xi|], (b !! index) as [yi|];
      try apply compareNumber_antisym.
    rewrite (Hc xi yi), IH.
    destruct (Z.eqb_spec (itemComparer yi xi) 0) as [-> | Hne]; simpl.
    + reflexivity.
    + destruct (Z.eqb_spec (- itemComparer yi xi) 0); [lia | reflexivity].
Qed.

Lemma arrayComparer_antisym :
  ComparerAntisymmetric itemComparer -> ComparerAntisymmetric (arrayComparer itemComparer).
Proof.
  intros Hc a b. unfold arrayComparer. rewrite (Nat.min_comm (length b)).
  now apply arrayComparerFrom_antisym.
Qed.

Lemma arrayComparer_refl :
  ComparerReflexive itemComparer -> ComparerReflexive (arrayComparer itemComparer).
Proof.
  intros Hc a. unfold arrayComparer. rewrite arrayComparerFrom_all_zero.
  - apply compareNumber_refl.
  - intros j xj yj Hx Hy. rewrite Hx in Hy. inversion Hy; subst. apply Hc.
Qed.

Lemma compareNumber_lengths (a b : list T) :
  Z.of_nat (length a) <= maxArrayLength -> Z.of_nat (length b) <= maxArrayLength ->
  compareNumber (number_of_nat (length a)) (number_of_nat (length b)) =
  Z.sgn (Z.of_nat (length a) - Z.of_nat (length b)).
Proof.
  unfold maxArrayLength, number_of_nat. intros Ha Hb.
  assert (2 ^ 32 < 2 ^ 53) by (apply Z.pow_lt_mono_r; lia).
  apply compareNumber_number_of_Z; lia.
Qed.
End ArrayComparer.

(** ** [orderComparer] *)

Section OrderComparerFacts.
Context `{Countable T}.

Lemma newMap_snoc {V} (entries : list (T * V)) (k : T) (v : V) :
  newMap (entries ++ [(k, v)]) = <[k := v]> (newMap entries).
Proof. unfold newMap. rewrite foldl_app. reflexivity. Qed.

Lemma orderLookup_snoc (ordering : list T) (x : T) :
  orderLookup (ordering ++ [x]) = <[x := length ordering]> (orderLookup ordering).
Proof.
  unfold orderLookup. rewrite imap_app. simpl.
  rewrite newMap_snoc, Nat.add_0_r. reflexivity.
Qed.

(** The [Map] sends an item to the index of its last occurrence. *)
Lemma orderLookup_last (ordering : list T) (item : T) (i : nat) :
  orderLookup ordering !! item = Some i <->
  ordering !! i = Some item /\ forall j, (i < j)%nat -> ordering !! j <> Some item.
Proof.
  revert i. induction ordering as [|x ordering IH] using rev_ind; intros i.
  - unfold orderLookup, newMap. simpl. rewrite lookup_empty.
    split; [discriminate | intros [Hi _]; discriminate].
  - rewrite orderLookup_snoc.
    destruct (decide (x = item)) as [-> | Hne].
    + rewrite lookup_insert_eq. split.
      * intros [= <-]. split.
        -- rewrite lookup_app_r by lia. rewrite Nat.sub_diag. reflexivity.
        -- intros j Hj Hjl. apply lookup_lt_Some in Hjl.
           rewrite length_app in Hjl. simpl in Hjl. lia.
      * intros [Hi Hlater]. f_equal.
        pose proof (lookup_lt_Some _ _ _ Hi) as Hlt.
        rewrite length_app in Hlt. simpl in Hlt.
        destruct (decide (i = length ordering)) as [-> | Hni]; [reflexivity|].
        exfalso. apply (Hlater (length ordering)); [lia|].
        rewrite lookup_app_r by lia. rewrite Nat.sub_diag. reflexivity.
    + rewrite lookup_insert_ne by assumption. rewrite IH. split.
      * intros [Hi Hlater]. split.
        -- rewrite lookup_app_l by (eapply lookup_lt_Some; eassumption). assumption.
        -- intros j Hj Hjl.
           destruct (decide (j < length ordering)%nat) as [Hlt | Hge].
           ++ rewrite lookup_app_l in Hjl by assumption. now apply (Hlater j).
           ++ rewrite lookup_app_r in Hjl by lia.
              destruct (j - length ordering)%nat; simpl in Hjl; [congruence | discriminate].
      * intros [Hi Hlater].
        assert (Hlt : (i < length ordering)%nat).
        { pose proof (lookup_lt_Some _ _ _ Hi) as Hlt.
          rewrite length_app in Hlt. simpl in Hlt.
          destruct (decide (i = length ordering)) as [-> | Hni]; [|lia].
          rewrite lookup_app_r in Hi by lia. rewrite Nat.sub_diag in Hi.
          simpl in Hi. congruence. }
        rewrite lookup_app_l in Hi by assumption. split; [assumption|].
        intros j Hj Hjl. apply (Hlater j Hj).
        rewrite lookup_app_l by (eapply lookup_lt_Some; eassumption). assumption.
Qed.

Lemma orderLookup_absent (ordering : list T) (item : T) :
  orderLookup ordering !! item = None <-> item ∉ ordering.
Proof.
  induction ordering as [|x ordering IH] using rev_ind.
  - unfold orderLookup, newMap. simpl. rewrite lookup_empty.
    split; [intros _; apply not_elem_of_nil | reflexivity].
  - rewrite orderLookup_snoc, not_elem_of_app, <- IH.
    destruct (decide (x = item)) as [-> | Hne].
    + rewrite lookup_insert_eq. split; [discriminate|].
      intros [_ Hnot]. exfalso. apply Hnot. apply list_elem_of_singleton. reflexivity.
    + rewrite lookup_insert_ne by assumption. split.
      * intros Hn. split; [assumption|]. rewrite list_elem_of_singleton. congruence.
      * intros [Hn _]. assumption.
Qed.

Lemma orderIndexOf_last (ordering : list T) (item : T) (i : nat) :
  ordering !! i = Some item ->
  (forall j, (i < j)%nat -> ordering !! j <> Some item) ->
  orderIndexOf ordering item = i.
Proof.
  intros Hi Hlater. unfold orderIndexOf.
  assert (Hl : orderLookup ordering !! item = Some i) by (apply orderLookup_last; auto).
  rewrite Hl. reflexivity.
Qed.

Lemma orderIndexOf_absent (ordering : list T) (item : T) :
  item ∉ ordering -> orderIndexOf ordering item = length ordering.
Proof.
  intros Hn. unfold orderIndexOf.
  apply orderLookup_absent in Hn. rewrite Hn. reflexivity.
Qed.

Lemma orderIndexOf_le (ordering : list T) (item : T) :
  (orderIndexOf ordering item <= length ordering)%nat.
Proof.
  unfold orderIndexOf. destruct (orderLookup ordering !! item) as [i|] eqn:Hl; [|lia].
  apply orderLookup_last in Hl as [Hi _]. apply lookup_lt_Some in Hi. lia.
Qed.

Lemma orderComparer_sign (ordering : list T) (a b : T) :
  Z.of_nat (length ordering) <= maxArrayLength ->
  orderComparer ordering a b =
  Z.sgn (Z.of_nat (orderIndexOf ordering a) - Z.of_nat (orderIndexOf ordering b)).
Proof.
  unfold maxArrayLength. intros Hlen.
  pose proof (orderIndexOf_le ordering a). pose proof (orderIndexOf_le ordering b).
  assert (2 ^ 32 < 2 ^ 53) by (apply Z.pow_lt_mono_r; lia).
  unfold orderComparer, number_of_nat. apply sign_sub_number_of_Z; lia.
Qed.

Lemma orderComparer_antisym (ordering : list T) :
  ComparerAntisymmetric (orderComparer ordering).
Proof. intros a b. unfold orderComparer. apply sign_sub_antisym. Qed.

Lemma orderComparer_refl (ordering : list T) : ComparerReflexive (orderComparer ordering).
Proof. intros a. unfold orderComparer. apply sign_sub_diag. Qed.
End OrderComparerFacts.

(** ** [groupComparer] *)

Section GroupComparer.
Context `{Countable TKey} {TValue TOther : Type}.
Context (compareFns : ComparerTable TKey TValue TOther) (keyFn : TValue -> TKey)
        (keyCompareFn : Comparer TKey).

Lemma groupComparer_nonzero (a b : TValue) :
  keyCompareFn (keyFn a) (keyFn b) <> 0 ->
  groupComparer compareFns keyFn keyCompareFn a b = returns (keyCompareFn (keyFn a) (keyFn b)).
Proof.
  intros Hne. unfold groupComparer.
  destruct (Z.eqb_spec (keyCompareFn (keyFn a) (keyFn b)) 0); [contradiction | reflexivity].
Qed.

Lemma groupComparer_zero (a b : TValue) :
  keyCompareFn (keyFn a) (keyFn b) = 0 ->
  groupComparer compareFns keyFn keyCompareFn a b = callEntry compareFns (keyFn a) a b.
Proof. intros Hz. unfold groupComparer. rewrite Hz. reflexivity. Qed.

Lemma callEntry_own (key : TKey) (comparer : Comparer TValue) (a b : TValue) :
  entries compareFns !! key = Some comparer ->
  callEntry compareFns key a b = returns (comparer a b).
Proof.
  intros Hc. unfold callEntry.
  change (entries compareFns !! key = Some comparer) in Hc.
  destruct (entries compareFns !! key) as [comparer'|]; [|discriminate].
  injection Hc as ->. reflexivity.
Qed.

Lemma callEntry_undefined (key : TKey) (a b : TValue) :
  entries compareFns !! key = None -> inherited compareFns key = None ->
  callEntry compareFns key a b = throws.
Proof.
  intros He Hi. unfold callEntry.
  change (entries compareFns !! key = None) in He.
  destruct (entries compareFns !! key); [discriminate|].
  rewrite Hi. reflexivity.
Qed.

Lemma groupComparer_antisym :
  ComparerAntisymmetric keyCompareFn ->
  (forall a b, keyCompareFn (keyFn a) (keyFn b) = 0 -> keyFn a = keyFn b) ->
  (forall key comparer,
     entries compareFns !! key = Some comparer -> ComparerAntisymmetric comparer) ->
  forall a b,
    is_Some (entries compareFns !! keyFn a) \/ inherited compareFns (keyFn a) = None ->
    groupComparer compareFns keyFn keyCompareFn a b =
    oppositeOutcome (groupComparer compareFns keyFn keyCompareFn b a).
Proof.
  intros Hk Hstrict Hfns a b Hlookup.
  destruct (Z.eq_dec (keyCompareFn (keyFn b) (keyFn a)) 0) as [Hz | Hnz].
  - assert (Hz' : keyCompareFn (keyFn a) (keyFn b) = 0) by (rewrite Hk, Hz; reflexivity).
    rewrite !groupComparer_zero by assumption.
    rewrite (Hstrict _ _ Hz).
    destruct (entries compareFns !! keyFn a) as [comparer|] eqn:Hc.
    + rewrite !(callEntry_own _ comparer) by exact Hc.
      simpl. f_equal. now apply (Hfns (keyFn a)).
    + destruct Hlookup as [[comparer Hsome] | Hnone]; [discriminate|].
      rewrite !callEntry_undefined by assumption. reflexivity.
  - assert (Hnz' : keyCompareFn (keyFn a) (keyFn b) <> 0) by (rewrite Hk; lia).
    rewrite !groupComparer_nonzero by assumption. simpl. f_equal. apply Hk.
Qed.

Lemma groupComparer_refl (a : TValue) (comparer : Comparer TValue) :
  ComparerReflexive keyCompareFn ->
  entries compareFns !! keyFn a = Some comparer -> ComparerReflexive comparer ->
  groupComparer compareFns keyFn keyCompareFn a a = returns 0.
Proof.
  intros Hk Hc Hr. rewrite groupComparer_zero by apply Hk.
  rewrite (callEntry_own _ comparer) by exact Hc. f_equal. apply Hr.
Qed.
End GroupComparer.

(** ** The nullable comparers and [compareNumberOrString] *)

Section Nullable.
Context {T : Type} (comparer : Comparer T).

Lemma nullableFirstComparer_cases (a b : Nullable T) :
  nullableFirstComparer comparer a b =
  match a, b with
  | present x, present y => comparer x y
  | present _, _ => 1
  | _, present _ => -1
  | _, _ => 0
  end.
Proof. destruct a, b; reflexivity. Qed.

Lemma nullableLastComparer_cases (a b : Nullable T) :
  nullableLastComparer comparer a b =
  match a, b with
  | present x, present y => comparer x y
  | present _, _ => -1
  | _, present _ => 1
  | _, _ => 0
  end.
Proof. destruct a, b; reflexivity. Qed.

Lemma nullableFirstComparer_antisym :
  ComparerAntisymmetric comparer -> ComparerAntisymmetric (nullableFirstComparer comparer).
Proof.
  intros Hc a b. rewrite !nullableFirstComparer_cases. destruct a, b; auto.
Qed.

Lemma nullableLastComparer_antisym :
  ComparerAntisymmetric comparer -> ComparerAntisymmetric (nullableLastComparer comparer).
Proof.
  intros Hc a b. rewrite !nullableLastComparer_cases. destruct a, b; auto.
Qed.

Lemma nullableFirstComparer_refl :
  ComparerReflexive comparer -> ComparerReflexive (nullableFirstComparer comparer).
Proof. intros Hc a. rewrite nullableFirstComparer_cases. destruct a; auto. Qed.

Lemma nullableLastComparer_refl :
  ComparerReflexive comparer -> ComparerReflexive (nullableLastComparer comparer).
Proof. intros Hc a. rewrite nullableLastComparer_cases. destruct a; auto. Qed.
End Nullable.

Section Strings.
Context `{Host}.

Lemma compareString_antisym : HostAntisymmetric -> ComparerAntisymmetric compareString.
Proof. intros Hh a b. apply Hh. Qed.

Lemma compareString_refl : HostReflexive -> ComparerReflexive compareString.
Proof. intros Hh a. apply Hh. Qed.

Lemma compareNumberOrString_cases (a b : NumberOrString) :
  compareNumberOrString a b =
  match a, b with
  | num x, num y => compareNumber x y
  | num _, str _ => -1
  | str _, num _ => 1
  | str x, str y => compareString x y
  end.
Proof. destruct a, b; reflexivity. Qed.

Lemma compareNumberOrString_antisym :
  HostAntisymmetric -> ComparerAntisymmetric compareNumberOrString.
Proof.
  intros Hh a b. rewrite !compareNumberOrString_cases.
  destruct a, b; try reflexivity.
  - apply compareNumber_antisym.
  - now apply compareString_antisym.
Qed.

Lemma compareNumberOrString_refl :
  HostReflexive -> ComparerReflexive compareNumberOrString.
Proof.
  intros Hh a. rewrite compareNumberOrString_cases. destruct a.
  - apply compareNumber_refl.
  - now apply compareString_refl.
Qed.
End Strings.

(** ** The tokens of [compareStringNatural] *)

Lemma append_cons (c : ascii) (s t : string) :
  (String c s ++ t)%string = String c (s ++ t)%string.
Proof. reflexivity. Qed.

Lemma greedy_spec (class : ascii -> bool) (s run after : string) :
  greedy class s = (run, after) ->
  (run ++ after)%string = s /\
  allChars class run = true /\
  match after with
  | String c _ => class c = false
  | EmptyString => True
  end /\
  (String.length after <= String.length s)%nat.
Proof.
  revert run after. induction s as [|c s IH]; intros run after Hg; simpl in Hg.
  - inversion Hg; subst. simpl. auto.
  - destruct (class c) eqn:Hc.
    + destruct (greedy class s) as [run' after'] eqn:Hg'. inversion Hg; subst.
      destruct (IH run' after eq_refl) as (Hjoin & Hall & Hstop & Hlen).
      simpl. rewrite append_cons, Hjoin, Hc, Hall. repeat split; auto.
    + inversion Hg; subst. simpl. rewrite Hc. repeat split; auto.
Qed.

Lemma matchAllFrom_empty (fuel : nat) : matchAllFrom fuel EmptyString = [].
Proof. destruct fuel; reflexivity. Qed.

(** One step of the search, by the kind of the first character. *)
Lemma matchAllFrom_digit (fuel : nat) (c : ascii) (next : string) :
  isDigit c = true ->
  exists run after,
    greedy isDigit next = (run, after) /\
    matchAllFrom (S fuel) (String c next) =
    digitRun (String c run) :: matchAllFrom fuel after.
Proof.
  intros Hc. destruct (greedy isDigit next) as [run after] eqn:Hg.
  exists run, after. split; [reflexivity|].
  simpl. rewrite Hc, Hg. reflexivity.
Qed.

Lemma matchAllFrom_other (fuel : nat) (c : ascii) (next : string) :
  isDigit c = false ->
  exists run after,
    greedy isNonDigit next = (run, after) /\
    matchAllFrom (S fuel) (String c next) =
    otherRun (String c run) :: matchAllFrom fuel after.
Proof.
  intros Hc. destruct (greedy isNonDigit next) as [run after] eqn:Hg.
  exists run, after. split; [reflexivity|].
  simpl. unfold isNonDigit at 1. rewrite Hc. simpl. rewrite Hg. reflexivity.
Qed.

(** With fuel for every character, the matches cover the string with
    well-formed runs of alternating kinds, starting with the kind of the first
    character. *)
Lemma matchAllFrom_runs (fuel : nat) :
  forall s, (String.length s <= fuel)%nat ->
    joinTexts (matchAllFrom fuel s) = s /\
    Forall wellFormedRun (matchAllFrom fuel s) /\
    alternating (matchAllFrom fuel s) /\
    match s with
    | EmptyString => matchAllFrom fuel s = []
    | String c _ =>
        exists m rest, matchAllFrom fuel s = m :: rest /\ isDigitRun m = isDigit c
    end.
Proof.
  induction fuel as [|fuel IH]; intros s Hlen.
  - destruct s; simpl in Hlen; [|lia]. simpl. auto.
  - destruct s as [|c next].
    + simpl. auto.
    + simpl in Hlen. destruct (isDigit c) eqn:Hc.
      * destruct (matchAllFrom_digit fuel c next Hc) as (run & after & Hg & ->).
        destruct (greedy_spec _ _ _ _ Hg) as (Hjoin & Hall & Hstop & Hla).
        destruct (IH after ltac:(lia)) as (IHjoin & IHwf & IHalt & IHhead).
        split; [|split; [|split; [split|]]].
        -- simpl. rewrite IHjoin, append_cons, Hjoin. reflexivity.
        -- constructor; [|assumption]. split; [discriminate|]. simpl. now rewrite Hc, Hall.
        -- destruct after as [|c' after'].
           ++ rewrite IHhead. exact I.
           ++ destruct IHhead as (m & rest & -> & Hm). rewrite Hm, Hstop. discriminate.
        -- assumption.
        -- eexists _, _. split; reflexivity.
      * destruct (matchAllFrom_other fuel c next Hc) as (run & after & Hg & ->).
        destruct (greedy_spec _ _ _ _ Hg) as (Hjoin & Hall & Hstop & Hla).
        destruct (IH after ltac:(lia)) as (IHjoin & IHwf & IHalt & IHhead).
        split; [|split; [|split; [split|]]].
        -- simpl. rewrite IHjoin, append_cons, Hjoin. reflexivity.
        -- constructor; [|assumption]. split; [discriminate|]. simpl.
           unfold isNonDigit at 1. now rewrite Hc, Hall.
        -- destruct after as [|c' after'].
           ++ rewrite IHhead. exact I.
           ++ destruct IHhead as (m & rest & -> & Hm). rewrite Hm.
              unfold isNonDigit in Hstop. apply negb_false_iff in Hstop. rewrite Hstop.
              discriminate.
        -- assumption.
        -- eexists _, _. split; reflexivity.
Qed.

(** [parseInt] reads a run of digits as the integer it denotes. *)
Lemma decimalValue_digits (s : string) (acc : Z) :
  allChars isDigit s = true ->
  decimalValue acc s = acc * 10 ^ Z.of_nat (String.length s) + digitsValue s.
Proof.
  revert acc. induction s as [|c s IH]; intros acc Hall; simpl in *.
  - lia.
  - apply andb_true_iff in Hall as [Hc Hs]. rewrite Hc, IH by assumption.
    rewrite Nat2Z.inj_succ, Z.pow_succ_r by lia. lia.
Qed.

Lemma parseInt10_digits (text : string) :
  text <> EmptyString -> allChars isDigit text = true ->
  parseInt10 text = number_of_Z (digitsValue text).
Proof.
  intros Hne Hall. destruct text as [|c rest]; [contradiction|].
  unfold parseInt10. pose proof Hall as Hall'. simpl in Hall'.
  apply andb_true_iff in Hall' as [Hc _]. rewrite Hc.
  rewrite decimalValue_digits by assumption. reflexivity.
Qed.

Lemma digitsValue_nonneg (s : string) : allChars isDigit s = true -> 0 <= digitsValue s.
Proof.
  induction s as [|c s IH]; simpl; intros Hall; [lia|].
  apply andb_true_iff in Hall as [Hc Hs]. specialize (IH Hs).
  unfold isDigit in Hc. apply andb_true_iff in Hc as [Hlo Hhi].
  apply Nat.leb_le in Hlo. apply Nat.leb_le in Hhi.
  assert (0 <= 10 ^ Z.of_nat (String.length s)) by (apply Z.pow_nonneg; lia).
  nia.
Qed.

(** ** The tokens of the code are the tokens of the specification *)

Lemma isDigit_decimal (c : ascii) : isDigit c = isDecimalDigit c.
Proof. destruct c as [[] [] [] [] [] [] [] []]; reflexivity. Qed.

Lemma isDigit_value (c : ascii) :
  isDigit c = true -> decimalDigitValue c = Some (Z.of_nat (nat_of_ascii c) - 48).
Proof. destruct c as [[] [] [] [] [] [] [] []]; intros Hc; first [discriminate Hc | reflexivity]. Qed.

Lemma integerValueFrom_digits (text : string) (value : Z) :
  allChars isDigit text = true -> integerValueFrom value text = decimalValue value text.
Proof.
  revert value. induction text as [|c text IH]; intros value Hall; simpl in *.
  - reflexivity.
  - apply andb_true_iff in Hall as [Hc Htext].
    rewrite Hc, (isDigit_value c Hc). now apply IH.
Qed.

Lemma integerValue_digits (text : string) :
  allChars isDigit text = true -> integerValue text = digitsValue text.
Proof.
  intros Hall. unfold integerValue.
  rewrite integerValueFrom_digits, decimalValue_digits by assumption. lia.
Qed.

Lemma allChars_kind (digits : bool) (text : string) :
  allChars (if digits then isDigit else isNonDigit) text =
  allChars (fun c => Bool.eqb (isDecimalDigit c) digits) text.
Proof.
  induction text as [|c text IH]; simpl; [reflexivity|].
  rewrite IH. f_equal. unfold isNonDigit.
  destruct digits; rewrite isDigit_decimal; destruct (isDecimalDigit c); reflexivity.
Qed.

Lemma specRuns_run (digits : bool) (text after : string) :
  text <> EmptyString ->
  allChars (fun c => Bool.eqb (isDecimalDigit c) digits) text = true ->
  match specRuns after with
  | run :: _ => digits <> fst run
  | [] => True
  end ->
  specRuns (text ++ after) = (digits, text) :: specRuns after.
Proof.
  induction text as [|c text IH]; intros Hne Hall Hnext; [contradiction|].
  simpl in Hall. apply andb_true_iff in Hall as [Hc Htext].
  apply Bool.eqb_prop in Hc.
  rewrite append_cons. simpl specRuns.
  destruct text as [|c' text].
  - change (EmptyString ++ after)%string with after.
    destruct (specRuns after) as [|[digits' text'] runs]; rewrite Hc; [reflexivity|].
    simpl in Hnext. destruct (Bool.eqb digits digits') eqn:He; [|reflexivity].
    apply Bool.eqb_prop in He. contradiction.
  - rewrite IH by (assumption || discriminate).
    rewrite Hc, Bool.eqb_reflx. reflexivity.
Qed.

Lemma specRuns_join (matches : list RegExpMatch) :
  Forall wellFormedRun matches -> alternating matches ->
  specRuns (joinTexts matches) = map runOfMatch matches.
Proof.
  induction matches as [|m rest IH]; intros Hwf Halt; [reflexivity|].
  apply List.Forall_cons_iff in Hwf as [[Hne Hall] Hwf]. destruct Halt as [Hhead Halt].
  specialize (IH Hwf Halt).
  change (joinTexts (m :: rest)) with (matchText m ++ joinTexts rest)%string.
  rewrite allChars_kind in Hall.
  rewrite (specRuns_run (isDigitRun m) (matchText m) (joinTexts rest) Hne Hall).
  - rewrite IH. reflexivity.
  - rewrite IH. destruct rest as [|m2 rest]; [exact I | exact Hhead].
Qed.

Lemma specRuns_matchAll (value : string) : specRuns value = map runOfMatch (matchAll value).
Proof.
  destruct (matchAllFrom_runs (String.length value) value (Nat.le_refl _))
    as (Hjoin & Hwf & Halt & _).
  fold (matchAll value) in Hjoin, Hwf, Halt.
  rewrite <- (specRuns_join _ Hwf Halt), Hjoin. reflexivity.
Qed.

Lemma naturalTokens_specTokens (value : string) :
  naturalTokens value = map numberOfToken (specTokens value).
Proof.
  unfold naturalTokens, specTokens. rewrite specRuns_matchAll, !map_map.
  destruct (matchAllFrom_runs (String.length value) value (Nat.le_refl _))
    as (_ & Hwf & _ & _).
  fold (matchAll value) in Hwf.
  induction Hwf as [|m rest [Hne Hall] Hwf IH]; [reflexivity|].
  simpl. rewrite IH. f_equal.
  destruct m as [text | text]; simpl in *; [|reflexivity].
  unfold specTokenOfRun. simpl.
  rewrite integerValue_digits by assumption.
  f_equal. destruct text as [|c text]; [contradiction|].
  change (parseInt10 (String c text) = number_of_Z (digitsValue (String c text))).
  now apply parseInt10_digits.
Qed.

Lemma specRuns_wellFormed (value : string) :
  joinRuns (specRuns value) = value /\
  Forall specRunWellFormed (specRuns value) /\
  specRunsAlternate (specRuns value).
Proof.
  rewrite specRuns_matchAll.
  destruct (matchAllFrom_runs (String.length value) value (Nat.le_refl _))
    as (Hjoin & Hwf & Halt & _).
  fold (matchAll value) in Hjoin, Hwf, Halt.
  split; [|split].
  - rewrite <- Hjoin at 2. clear. induction (matchAll value) as [|m rest IH]; [reflexivity|].
    simpl. rewrite IH. reflexivity.
  - clear Hjoin Halt. induction Hwf as [|m rest [Hne Hall] Hwf IH]; [apply List.Forall_nil|].
    simpl. apply List.Forall_cons; [|exact IH].
    split; [exact Hne|]. simpl. rewrite <- allChars_kind. exact Hall.
  - clear Hjoin Hwf. induction (matchAll value) as [|m rest IH]; [exact I|].
    destruct Halt as [Hhead Halt]. split; [|now apply IH].
    destruct rest as [|m2 rest]; [exact I | exact Hhead].
Qed.

(** ** Sorting *)

Lemma insertSorted_permutation {T} (compare : Comparer T) (x : T) (sorted : list T) :
  Permutation (x :: sorted) (insertSorted compare x sorted).
Proof.
  induction sorted as [|y rest IH]; simpl.
  - reflexivity.
  - destruct (0 <? compare x y).
    + rewrite perm_swap. now apply perm_skip.
    + reflexivity.
Qed.

Lemma toSorted_permutation {T} (compare : Comparer T) (items : list T) :
  Permutation items (toSorted compare items).
Proof.
  induction items as [|x items IH]; simpl.
  - reflexivity.
  - rewrite <- insertSorted_permutation. now apply perm_skip.
Qed.

(** When no two different elements compare equal, the sorted rearrangement is
    unique: every sort routine returns it. *)
Lemma sorted_permutation_unique {T} (compare : Comparer T) (l1 l2 : list T) :
  (forall x y, In x l1 -> In y l1 -> compare x y <= 0 -> compare y x <= 0 -> x = y) ->
  Permutation l1 l2 ->
  StronglySorted (fun x y => compare x y <= 0) l1 ->
  StronglySorted (fun x y => compare x y <= 0) l2 ->
  l1 = l2.
Proof.
  revert l2. induction l1 as [|x l1 IH]; intros l2 Hdistinct Hperm Hs1 Hs2.
  - apply Permutation_nil in Hperm. now subst.
  - destruct l2 as [|y l2].
    + apply Permutation_sym, Permutation_nil in Hperm. discriminate.
    + apply StronglySorted_inv in Hs1 as [Hs1 Hx].
      apply StronglySorted_inv in Hs2 as [Hs2 Hy].
      rewrite List.Forall_forall in Hx, Hy.
      assert (Hxy : x = y).
      { assert (Hin_y : In y (x :: l1))
          by (eapply Permutation_in; [symmetry; exact Hperm | now left]).
        assert (Hin_x : In x (y :: l2))
          by (eapply Permutation_in; [exact Hperm | now left]).
        destruct Hin_y as [Heq | Hin_y]; [assumption|].
        destruct Hin_x as [Heq | Hin_x]; [now symmetry|].
        apply Hdistinct; [now left | now right | now apply Hx | now apply Hy]. }
      subst y. f_equal. apply IH.
      * intros a b Ha Hb. apply Hdistinct; now right.
      * now apply Permutation_cons_inv in Hperm.
      * assumption.
      * assumption.
Qed.

Lemma isSortOf_unique {T} (compare : Comparer T) (input expected output : list T) :
  (forall x y, In x expected -> In y expected ->
               compare x y <= 0 -> compare y x <= 0 -> x = y) ->
  isSortOf compare input expected -> isSortOf compare input output -> output = expected.
Proof.
  intros Hdistinct [Hp1 Hs1] [Hp2 Hs2]. symmetry.
  apply (sorted_permutation_unique compare); try assumption.
  now rewrite <- Hp1.
Qed.

(** ** Further facts used below *)

Lemma numberRank_classes (a : float) :
  is_nan a = (numberRank a =? 0) /\
  (a =? neg_infinity)%float = (numberRank a =? 1) /\
  is_finite a = (numberRank a =? 2) /\
  (a =? infinity)%float = (numberRank a =? 3).
Proof.
  unfold numberRank.
  rewrite is_finite_spec, is_nan_spec, eqb_neg_infinity_spec, eqb_infinity_spec.
  destruct (Prim2SF a) as [s|s| |s m e]; try destruct s; repeat split; reflexivity.
Qed.

Lemma orderIndexOf_present `{Countable T} (ordering : list T) (item : T) :
  item ∈ ordering -> (orderIndexOf ordering item < length ordering)%nat.
Proof.
  intros Hin. unfold orderIndexOf.
  destruct (orderLookup ordering !! item) as [i|] eqn:Hl.
  - apply orderLookup_last in Hl as [Hi _]. now apply lookup_lt_Some in Hi.
  - apply orderLookup_absent in Hl. contradiction.
Qed.

(** ** The remaining exported comparers *)

Lemma conditionTypeFirstComparerTraced_result {TIn} (condition : TIn -> bool)
    (trueComparer falseComparer : TracedComparer TIn) (a b : TIn) :
  fst (conditionTypeFirstComparerTraced condition trueComparer falseComparer a b) =
  conditionTypeFirstComparer condition
    (fun x y => fst (trueComparer x y)) (fun x y => fst (falseComparer x y)) a b.
Proof.
  unfold conditionTypeFirstComparerTraced, conditionTypeFirstComparer.
  destruct (condition a), (condition b); reflexivity.
Qed.

Lemma compareDate_antisym : ComparerAntisymmetric compareDate.
Proof. apply mapComparer_antisym, compareFiniteNumber_antisym. Qed.

Lemma compareDate_refl : ComparerReflexive compareDate.
Proof. apply mapComparer_refl, compareFiniteNumber_refl. Qed.

Lemma compareNullableFirst_antisym {T} : ComparerAntisymmetric (@compareNullableFirst T).
Proof. apply nullableFirstComparer_antisym, compareEqual_antisym. Qed.

Lemma compareNullableFirst_refl {T} : ComparerReflexive (@compareNullableFirst T).
Proof. apply nullableFirstComparer_refl, compareEqual_refl. Qed.

Lemma collatorComparer_antisym (collator : Collator) :
  CollatorAntisymmetric collator -> ComparerAntisymmetric (collatorComparer collator).
Proof. intros Hc a b. apply Hc. Qed.

Lemma collatorComparer_refl (collator : Collator) :
  CollatorReflexive collator -> ComparerReflexive (collatorComparer collator).
Proof. intros Hc a. apply Hc. Qed.

Section HostComparers.
Context `{Host}.

Lemma localeComparer_antisym (locale : string) :
  HostAntisymmetric -> ComparerAntisymmetric (localeComparer locale).
Proof. intros Hh a b. apply Hh. Qed.

Lemma localeComparer_refl (locale : string) :
  HostReflexive -> ComparerReflexive (localeComparer locale).
Proof. intros Hh a. apply Hh. Qed.

Lemma compareStringNatural_antisym :
  HostAntisymmetric -> ComparerAntisymmetric compareStringNatural.
Proof.
  intros Hh. apply mapComparer_antisym, arrayComparer_antisym.
  now apply compareNumberOrString_antisym.
Qed.

Lemma compareStringNatural_refl :
  HostReflexive -> ComparerReflexive compareStringNatural.
Proof.
  intros Hh. apply mapComparer_refl, arrayComparer_refl.
  now apply compareNumberOrString_refl.
Qed.
End HostComparers.

(** The host of the examples is anti-symmetric and reflexive. *)
Lemma codeUnitHost_antisym : @HostAntisymmetric codeUnitHost.
Proof.
  intros a b locales. simpl. rewrite (String.compare_antisym a b).
  destruct (String.compare b a); reflexivity.
Qed.

Lemma codeUnitHost_refl : @HostReflexive codeUnitHost.
Proof.
  intros a locales. simpl.
  pose proof (String.compare_antisym a a) as Hs.
  destruct (String.compare a a); try discriminate. reflexivity.
Qed.

(** The key comparer of the examples tells the two groups apart. *)
Lemma signKey_order_strict (a b : float) :
  orderComparer ["negative"; "positive"]%string (signKey a) (signKey b) = 0 ->
  signKey a = signKey b.
Proof.
  unfold signKey. destruct (a <? 0)%float, (b <? 0)%float;
    vm_compute; intros Hz; (reflexivity || discriminate).
Qed.

Lemma ascendingGroups_lookup {TOther} (prototype : string -> option (Inherited float TOther))
    (key : string) (comparer : Comparer float) :
  entries (ascendingGroups prototype) !! key = Some comparer -> comparer = compareNumber.
Proof.
  unfold ascendingGroups. simpl. intros Hl.
  apply lookup_insert_Some in Hl as [[_ <-] | [_ Hl]]; [reflexivity|].
  apply lookup_singleton_Some in Hl as [_ <-]. reflexivity.
Qed.

(** ** [compareStringNatural] on strings of a text and a number *)

Lemma compareStringNatural_text_number `{Host} (a b p : string) (x y : float) :
  HostReflexive ->
  naturalTokens a = [str p; num x] -> naturalTokens b = [str p; num y] ->
  compareNumber x y <> 0 ->
  compareStringNatural a b = compareNumber x y.
Proof.
  intros Hh Ha Hb Hne. unfold compareStringNatural, mapComparer, arrayComparer.
  rewrite Ha, Hb. simpl.
  rewrite (compareNumberOrString_cases (str p) (str p)), (compareString_refl Hh p). simpl.
  rewrite (compareNumberOrString_cases (num x) (num y)).
  destruct (Z.eqb_spec (compareNumber x y) 0); [contradiction | reflexivity].
Qed.

(** Two strings made of the text ["a"] and a number compare as their numbers
    do; [x] and [y] are the numbers. *)
Ltac text_number_order Hh x y :=
  rewrite (compareStringNatural_text_number _ _ "a" x y Hh)
    by (vm_compute; (reflexivity || discriminate));
  vm_compute; reflexivity.

(** The order of ["a1"], ["a2"] and ["a10"] for a reflexive host. *)
Lemma compareStringNatural_example `{Host} :
  HostReflexive ->
  compareStringNatural "a1" "a2" = -1 /\ compareStringNatural "a2" "a1" = 1 /\
  compareStringNatural "a1" "a10" = -1 /\ compareStringNatural "a10" "a1" = 1 /\
  compareStringNatural "a2" "a10" = -1 /\ compareStringNatural "a10" "a2" = 1.
Proof.
  intros Hh. repeat apply conj.
  - text_number_order Hh 1%float 2%float.
  - text_number_order Hh 2%float 1%float.
  - text_number_order Hh 1%float 10%float.
  - text_number_order Hh 10%float 1%float.
  - text_number_order Hh 2%float 10%float.
  - text_number_order Hh 10%float 2%float.
Qed.

(** * The claims *)

(** C1: for every predicate [p] and comparers [t] and [f],
    [conditionFirstComparer(p, t, f)(a, b)] is [t(a, b)] when [p(a)] and [p(b)]
    both hold, [f(a, b)] when neither holds, [-1] when only [p(a)] holds and
    [1] when only [p(b)] holds; [conditionTypeFirstComparer] partitions the
    same way with a type guard for [p]. *)
Theorem conditionFirstComparer_partition {T} (p : T -> bool) (t f : Comparer T) (a b : T) :
  conditionFirstComparer p t f a b =
    match p a, p b with
    | true, true => t a b
    | false, false => f a b
    | true, false => -1
    | false, true => 1
    end
  /\
  conditionTypeFirstComparer p t f a b =
    match p a, p b with
    | true, true => t a b
    | false, false => f a b
    | true, false => -1
    | false, true => 1
    end.
Proof.
  rewrite conditionFirstComparer_cases, conditionTypeFirstComparer_cases.
  destruct (p a), (p b); split; reflexivity.
Qed.

(** C2: [compareNumber] puts every NaN before negative infinity, negative
    infinity before every finite number, the finite numbers in ascending order
    and positive infinity after everything else; two NaN, two negative
    infinities and two positive infinities compare equal.  A stable sort of
    [[1, NaN, -Infinity, 0, Infinity]] gives [[NaN, -Infinity, 0, 1, Infinity]],
    and so does every sort routine.

    [numberRank] is [0] on NaN, [1] on negative infinity, [2] on the finite
    numbers and [3] on positive infinity; [ascending] is the order [<]. *)
Theorem compareNumber_global_order :
  (forall a : float,
     is_nan a = (numberRank a =? 0) /\
     (a =? neg_infinity)%float = (numberRank a =? 1) /\
     is_finite a = (numberRank a =? 2) /\
     (a =? infinity)%float = (numberRank a =? 3))
  /\
  (forall a b : float,
     compareNumber a b =
     match numberRank a ?= numberRank b with
     | Lt => -1
     | Gt => 1
     | Eq => if numberRank a =? 2 then ascending a b else 0
     end)
  /\
  toSorted compareNumber [1; nan; neg_infinity; 0; infinity]%float =
    [nan; neg_infinity; 0; 1; infinity]%float
  /\
  (forall output,
     isSortOf compareNumber [1; nan; neg_infinity; 0; infinity]%float output ->
     output = [nan; neg_infinity; 0; 1; infinity]%float).
Proof.
  split; [exact numberRank_classes|]. split; [exact compareNumber_rank|].
  assert (Hsorted : toSorted compareNumber [1; nan; neg_infinity; 0; infinity]%float =
                    [nan; neg_infinity; 0; 1; infinity]%float)
    by (vm_compute; reflexivity).
  split; [exact Hsorted|].
  intros output. apply isSortOf_unique.
  - intros x y Hx Hy H1 H2. simpl in Hx, Hy.
    repeat (destruct Hx as [<- | Hx]; [|]); try contradiction;
      repeat (destruct Hy as [<- | Hy]; [|]); try contradiction;
      first [ reflexivity
            | exfalso; vm_compute in H1; now apply H1
            | exfalso; vm_compute in H2; now apply H2 ].
  - split.
    + rewrite <- Hsorted. apply toSorted_permutation.
    + repeat constructor; vm_compute; discriminate.
Qed.

Lemma compareNumber_global_order_witness :
  isSortOf compareNumber [1; nan; neg_infinity; 0; infinity]%float
    (toSorted compareNumber [1; nan; neg_infinity; 0; infinity]%float) /\
  toSorted compareNumber [1; nan; neg_infinity; 0; infinity]%float =
    [nan; neg_infinity; 0; 1; infinity]%float.
Proof.
  assert (Hsort : isSortOf compareNumber [1; nan; neg_infinity; 0; infinity]%float
                    (toSorted compareNumber [1; nan; neg_infinity; 0; infinity]%float)).
  { split; [apply toSorted_permutation|].
    replace (toSorted compareNumber [1; nan; neg_infinity; 0; infinity]%float)
      with [nan; neg_infinity; 0; 1; infinity]%float by (vm_compute; reflexivity).
    repeat constructor; vm_compute; discriminate. }
  split; [exact Hsort|].
  exact (proj2 (proj2 (proj2 compareNumber_global_order)) _ Hsort).
Defined.

(** C3: [arrayComparer(c)(a, b)] is the result of [c] at the first index,
    from [0] up to the shorter length, where [c] is not [0]; if [c] is [0] at
    every common index, the result is the sign of the difference of the
    lengths (the shorter array first), and [0] for arrays of equal length. *)
Theorem arrayComparer_first_difference {T} (c : Comparer T) (a b : list T) :
  (forall i x y,
     a !! i = Some x -> b !! i = Some y -> c x y <> 0 ->
     (forall j xj yj, (j < i)%nat -> a !! j = Some xj -> b !! j = Some yj -> c xj yj = 0) ->
     arrayComparer c a b = c x y)
  /\
  ((forall j xj yj, a !! j = Some xj -> b !! j = Some yj -> c xj yj = 0) ->
   Z.of_nat (length a) <= maxArrayLength -> Z.of_nat (length b) <= maxArrayLength ->
   arrayComparer c a b = Z.sgn (Z.of_nat (length a) - Z.of_nat (length b)))
  /\
  ((forall j xj yj, a !! j = Some xj -> b !! j = Some yj -> c xj yj = 0) ->
   length a = length b ->
   arrayComparer c a b = 0).
Proof.
  split; [|split].
  - intros i x y Ha Hb Hne Hzero. unfold arrayComparer.
    apply (arrayComparerFrom_first_nonzero c a b i x y); auto; lia.
  - intros Hzero Hla Hlb. unfold arrayComparer.
    rewrite arrayComparerFrom_all_zero by assumption.
    now apply compareNumber_lengths.
  - intros Hzero Hlen. unfold arrayComparer.
    rewrite arrayComparerFrom_all_zero by assumption.
    rewrite Hlen. apply compareNumber_refl.
Qed.

Lemma arrayComparer_first_difference_witness :
  arrayComparer compareNumber [1; 2]%float [1; 3; 0]%float = compareNumber 2%float 3%float /\
  arrayComparer compareNumber [1]%float [1; 1]%float = Z.sgn (1 - 2) /\
  arrayComparer compareNumber [2; 1]%float [2; 1]%float = 0.
Proof.
  split; [|split].
  - apply (proj1 (arrayComparer_first_difference compareNumber
             [1; 2]%float [1; 3; 0]%float) 1%nat 2%float 3%float);
      [reflexivity | reflexivity | vm_compute; discriminate |].
    intros [|j] xj yj Hj Hx Hy; [|lia].
    inversion Hx; inversion Hy; subst. vm_compute. reflexivity.
  - apply (proj1 (proj2 (arrayComparer_first_difference compareNumber
             [1]%float [1; 1]%float)));
      [| vm_compute; discriminate | vm_compute; discriminate].
    intros [|j] xj yj Hx Hy; [|discriminate].
    inversion Hx; inversion Hy; subst. vm_compute. reflexivity.
  - apply (proj2 (proj2 (arrayComparer_first_difference compareNumber
             [2; 1]%float [2; 1]%float))); [|reflexivity].
    intros [|[|j]] xj yj Hx Hy; try discriminate;
      inversion Hx; inversion Hy; subst; vm_compute; reflexivity.
Defined.

(** C4 (as stated, refuted): in the ordering [["a", "b", "a"]] the first
    occurrence of ["a"] is at index [0] and that of ["b"] at index [1], so the
    claim gives [sign(0 - 1) = -1] for [("a", "b")]; the [Map] holds index [2]
    for ["a"], and the comparer answers [1]. *)
Lemma orderComparer_first_occurrence_counterexample :
  let ordering := ["a"; "b"; "a"]%string in
  firstIndexOf ordering "a"%string = 0%nat /\
  firstIndexOf ordering "b"%string = 1%nat /\
  orderIndexOf ordering "a"%string = 2%nat /\
  orderComparer ordering "a"%string "b"%string = 1 /\
  orderComparer ordering "a"%string "b"%string <>
    Z.sgn (Z.of_nat (firstIndexOf ordering "a"%string) -
           Z.of_nat (firstIndexOf ordering "b"%string)).
Proof. vm_compute. repeat split; discriminate. Qed.

(** C4 (amended): [orderComparer(s)] assigns each value that occurs in [s] the
    index of its last occurrence, and every value absent from [s] the index
    [s.length]; it returns the sign of the index difference of its two
    arguments, so absent values compare equal to each other and after every
    listed value. *)
Theorem orderComparer_last_occurrence `{Countable T} (ordering : list T) :
  (forall item i,
     ordering !! i = Some item ->
     (forall j, (i < j)%nat -> ordering !! j <> Some item) ->
     orderIndexOf ordering item = i)
  /\
  (forall item, item ∉ ordering -> orderIndexOf ordering item = length ordering)
  /\
  (Z.of_nat (length ordering) <= maxArrayLength ->
   (forall a b,
      orderComparer ordering a b =
      Z.sgn (Z.of_nat (orderIndexOf ordering a) - Z.of_nat (orderIndexOf ordering b))) /\
   (forall a b, a ∉ ordering -> b ∉ ordering -> orderComparer ordering a b = 0) /\
   (forall a b, a ∈ ordering -> b ∉ ordering -> orderComparer ordering a b = -1)).
Proof.
  split; [|split].
  - intros item i. apply orderIndexOf_last.
  - apply orderIndexOf_absent.
  - intros Hlen. split; [|split].
    + intros a b. now apply orderComparer_sign.
    + intros a b Ha Hb. rewrite orderComparer_sign by assumption.
      rewrite !orderIndexOf_absent by assumption. rewrite Z.sub_diag. reflexivity.
    + intros a b Ha Hb. rewrite orderComparer_sign by assumption.
      rewrite (orderIndexOf_absent ordering b) by assumption.
      pose proof (orderIndexOf_present ordering a Ha).
      apply Z.sgn_neg_iff. lia.
Qed.

Lemma orderComparer_last_occurrence_witness :
  orderIndexOf ["a"; "b"; "a"]%string "a"%string = 2%nat /\
  orderIndexOf ["a"; "b"; "a"]%string "c"%string = 3%nat /\
  orderComparer ["a"; "b"; "a"]%string "b"%string "c"%string = -1.
Proof.
  pose proof (orderComparer_last_occurrence ["a"; "b"; "a"]%string) as (Hlast & Habsent & Hsign).
  split; [|split].
  - apply Hlast; [reflexivity|].
    intros j Hj Hl. apply lookup_lt_Some in Hl. simpl in Hl. lia.
  - apply Habsent. intros Hin. repeat (apply elem_of_cons in Hin as [Hin | Hin]; [discriminate|]).
    now apply elem_of_nil in Hin.
  - apply Hsign.
    + vm_compute. discriminate.
    + apply elem_of_cons. right. apply elem_of_cons. now left.
    + intros Hin. repeat (apply elem_of_cons in Hin as [Hin | Hin]; [discriminate|]).
      now apply elem_of_nil in Hin.
Defined.

(** C5: on two booleans [compareBoolean] returns [0] when they are equal;
    otherwise the code orders [false] before [true]:
    [compareBoolean(true, false)] is [1] and [compareBoolean(false, true)] is
    [-1], where its documentation and the claim order [true] first. *)
Theorem compareBoolean_values :
  compareBoolean true true = 0 /\
  compareBoolean false false = 0 /\
  compareBoolean true false = 1 /\
  compareBoolean false true = -1.
Proof. repeat split. Qed.

(** C6 (as stated, refuted): [-1] and [1] fall in different groups, and the
    key comparer [compareEqual] answers [0] on their keys; [groupComparer]
    then answers with the entry of the first key, [-1], and not with the key
    comparer's result.  This is so whatever the object literal inherits. *)
Lemma groupComparer_keys_differ_counterexample :
  signKey (-1)%float <> signKey 1%float /\
  compareEqual (signKey (-1)%float) (signKey 1%float) = 0 /\
  (forall TOther (prototype : string -> option (Inherited float TOther)),
     groupComparer (ascendingGroups prototype) signKey compareEqual (-1)%float 1%float =
       returns (-1) /\
     groupComparer (ascendingGroups prototype) signKey compareEqual (-1)%float 1%float <>
       returns (compareEqual (signKey (-1)%float) (signKey 1%float))).
Proof.
  split; [vm_compute; discriminate|]. split; [reflexivity|].
  intros TOther prototype.
  assert (Hresult : groupComparer (ascendingGroups prototype) signKey compareEqual
                      (-1)%float 1%float = returns (-1)).
  { rewrite groupComparer_zero by reflexivity.
    rewrite (callEntry_own _ _ compareNumber) by reflexivity.
    f_equal. }
  split; [exact Hresult|]. rewrite Hresult. discriminate.
Qed.

(** C6 (amended): [groupComparer] applied to [(a, b)] computes the keys
    [keyFn(a)] and [keyFn(b)]; if the key comparer's result on the two keys is
    not [0] it returns that result, and if it is [0] it returns the result of
    the table entry for [keyFn(a)] applied to [(a, b)].  For a key comparer
    that returns [0] exactly on equal keys: the key comparer's result if the
    keys differ, the table entry for that key if they are equal. *)
Theorem groupComparer_by_key_result `{Countable TKey} {TValue TOther}
    (compareFns : ComparerTable TKey TValue TOther) (keyFn : TValue -> TKey)
    (keyCompareFn : Comparer TKey) (a b : TValue) :
  (keyCompareFn (keyFn a) (keyFn b) <> 0 ->
   groupComparer compareFns keyFn keyCompareFn a b =
   returns (keyCompareFn (keyFn a) (keyFn b)))
  /\
  (forall comparer,
     keyCompareFn (keyFn a) (keyFn b) = 0 ->
     entries compareFns !! keyFn a = Some comparer ->
     groupComparer compareFns keyFn keyCompareFn a b = returns (comparer a b))
  /\
  ((forall k1 k2, keyCompareFn k1 k2 = 0 <-> k1 = k2) ->
   (keyFn a <> keyFn b ->
    groupComparer compareFns keyFn keyCompareFn a b =
    returns (keyCompareFn (keyFn a) (keyFn b))) /\
   (forall comparer,
      keyFn a = keyFn b ->
      entries compareFns !! keyFn a = Some comparer ->
      groupComparer compareFns keyFn keyCompareFn a b = returns (comparer a b))).
Proof.
  split; [|split].
  - apply groupComparer_nonzero.
  - intros comparer Hz Hc. rewrite groupComparer_zero by assumption.
    now apply callEntry_own.
  - intros Hstrict. split.
    + intros Hne. apply groupComparer_nonzero. rewrite Hstrict. assumption.
    + intros comparer Heq Hc. rewrite groupComparer_zero by (rewrite Hstrict; assumption).
      now apply callEntry_own.
Qed.

Lemma groupComparer_by_key_result_witness :
  groupComparer (ascendingGroups toStringPrototype) signKey
    (orderComparer ["negative"; "positive"]%string) (-1)%float 1%float = returns (-1) /\
  groupComparer (ascendingGroups toStringPrototype) signKey compareEqual 2%float 1%float =
    returns 1.
Proof.
  split.
  - refine (eq_trans (proj1 (groupComparer_by_key_result (ascendingGroups toStringPrototype)
      signKey (orderComparer ["negative"; "positive"]%string) (-1)%float 1%float) _) _).
    + vm_compute. discriminate.
    + vm_compute. reflexivity.
  - refine (eq_trans (proj1 (proj2 (groupComparer_by_key_result
      (ascendingGroups toStringPrototype) signKey compareEqual 2%float 1%float))
      compareNumber _ _) _).
    + reflexivity.
    + reflexivity.
    + vm_compute. reflexivity.
Defined.

(** C7 (as stated, refuted): [compareEqual] and the two entries of the table
    are anti-symmetric, yet the [groupComparer] built from them answers [-1]
    on [(-1, 1)] and [-1] again on [(1, -1)], whatever the object literal
    inherits. *)
Lemma groupComparer_antisymmetry_counterexample :
  ComparerAntisymmetric (@compareEqual string) /\
  ComparerAntisymmetric compareNumber /\
  ComparerAntisymmetric (invertComparer compareNumber) /\
  (forall TOther (prototype : string -> option (Inherited float TOther)),
     groupComparer (mirroredGroups prototype) signKey compareEqual (-1)%float 1%float =
       returns (-1) /\
     groupComparer (mirroredGroups prototype) signKey compareEqual 1%float (-1)%float =
       returns (-1) /\
     groupComparer (mirroredGroups prototype) signKey compareEqual (-1)%float 1%float <>
       oppositeOutcome
         (groupComparer (mirroredGroups prototype) signKey compareEqual 1%float (-1)%float)).
Proof.
  split; [apply compareEqual_antisym|].
  split; [apply compareNumber_antisym|].
  split; [apply invertComparer_antisym, compareNumber_antisym|].
  intros TOther prototype.
  assert (Hab : groupComparer (mirroredGroups prototype) signKey compareEqual
                  (-1)%float 1%float = returns (-1)).
  { rewrite groupComparer_zero by reflexivity.
    rewrite (callEntry_own _ _ compareNumber) by reflexivity. f_equal. }
  assert (Hba : groupComparer (mirroredGroups prototype) signKey compareEqual
                  1%float (-1)%float = returns (-1)).
  { rewrite groupComparer_zero by reflexivity.
    rewrite (callEntry_own _ _ (invertComparer compareNumber)) by reflexivity. f_equal. }
  split; [exact Hab|]. split; [exact Hba|]. rewrite Hab, Hba. discriminate.
Qed.

(** C7 (amended): anti-symmetry, [compare(a, b) == -compare(b, a)], holds for
    every exported comparer: for the primitive comparers as they are, for the
    string comparers when the host's comparison is anti-symmetric, and for the
    comparers built by a combinator when the supplied comparers are
    anti-symmetric; for [groupComparer] the key comparer must moreover return
    [0] only on equal keys, and the key of [a] has an entry in the table (or
    the lookup finds nothing at all, and both directions throw). *)
Theorem exported_comparers_antisymmetric `{Host} :
  (ComparerAntisymmetric compareFiniteNumber /\
   ComparerAntisymmetric compareNumber /\
   ComparerAntisymmetric compareNanFirst /\
   ComparerAntisymmetric comparePositiveInfinityFirst /\
   ComparerAntisymmetric compareNegativeInfinityFirst /\
   ComparerAntisymmetric compareBoolean /\
   ComparerAntisymmetric compareDate /\
   (forall T, ComparerAntisymmetric (@compareNullableFirst T)))
  /\
  (HostAntisymmetric ->
   ComparerAntisymmetric compareString /\
   (forall locale, ComparerAntisymmetric (localeComparer locale)) /\
   ComparerAntisymmetric compareNumberOrString /\
   ComparerAntisymmetric compareStringNatural)
  /\
  (forall collator,
     CollatorAntisymmetric collator -> ComparerAntisymmetric (collatorComparer collator))
  /\
  (forall T (p : T -> bool) (t f : Comparer T),
     ComparerAntisymmetric t -> ComparerAntisymmetric f ->
     ComparerAntisymmetric (conditionFirstComparer p t f) /\
     ComparerAntisymmetric (conditionTypeFirstComparer p t f))
  /\
  (forall T (strictEquals : T -> T -> bool) (value : T),
     ComparerAntisymmetric (constFirstComparer strictEquals value))
  /\
  (forall T (c : Comparer T),
     ComparerAntisymmetric c ->
     ComparerAntisymmetric (nullableFirstComparer c) /\
     ComparerAntisymmetric (nullableLastComparer c) /\
     ComparerAntisymmetric (invertComparer c) /\
     ComparerAntisymmetric (arrayComparer c) /\
     (forall TIn (mapper : TIn -> T), ComparerAntisymmetric (mapComparer c mapper)))
  /\
  (forall T (comparers : list (Comparer T)),
     Forall ComparerAntisymmetric comparers ->
     ComparerAntisymmetric (chainComparers comparers))
  /\
  (forall T (EqT : EqDecision T) (CountT : Countable T) (ordering : list T),
     ComparerAntisymmetric (orderComparer ordering))
  /\
  (forall TKey (EqK : EqDecision TKey) (CountK : Countable TKey) TValue TOther
          (compareFns : ComparerTable TKey TValue TOther) (keyFn : TValue -> TKey)
          (keyCompareFn : Comparer TKey),
     ComparerAntisymmetric keyCompareFn ->
     (forall a b, keyCompareFn (keyFn a) (keyFn b) = 0 -> keyFn a = keyFn b) ->
     (forall key comparer,
        entries compareFns !! key = Some comparer -> ComparerAntisymmetric comparer) ->
     forall a b,
       is_Some (entries compareFns !! keyFn a) \/ inherited compareFns (keyFn a) = None ->
       groupComparer compareFns keyFn keyCompareFn a b =
       oppositeOutcome (groupComparer compareFns keyFn keyCompareFn b a)).
Proof.
  repeat apply conj.
  - apply compareFiniteNumber_antisym.
  - apply compareNumber_antisym.
  - apply compareNanFirst_antisym.
  - apply constFirstComparer_antisym.
  - apply constFirstComparer_antisym.
  - apply compareBoolean_antisym.
  - apply compareDate_antisym.
  - intros T. apply compareNullableFirst_antisym.
  - intros Hh. repeat apply conj.
    + now apply compareString_antisym.
    + intros locale. now apply localeComparer_antisym.
    + now apply compareNumberOrString_antisym.
    + now apply compareStringNatural_antisym.
  - apply collatorComparer_antisym.
  - intros T p t f Ht Hf. split.
    + now apply conditionFirstComparer_antisym.
    + apply conditionTypeFirstComparer_antisym; auto.
  - intros T strictEquals value. apply constFirstComparer_antisym.
  - intros T c Hc. repeat apply conj.
    + now apply nullableFirstComparer_antisym.
    + now apply nullableLastComparer_antisym.
    + now apply invertComparer_antisym.
    + now apply arrayComparer_antisym.
    + intros TIn mapper. now apply mapComparer_antisym.
  - intros T comparers. apply chainComparers_antisym.
  - intros T EqT CountT ordering. apply orderComparer_antisym.
  - intros TKey EqK CountK TValue TOther compareFns keyFn keyCompareFn.
    apply groupComparer_antisym.
Qed.

Lemma exported_comparers_antisymmetric_witness :
  ComparerAntisymmetric (@compareStringNatural codeUnitHost) /\
  ComparerAntisymmetric (chainComparers [compareBoolean; invertComparer compareBoolean]) /\
  (forall a b,
     groupComparer (ascendingGroups toStringPrototype) signKey
       (orderComparer ["negative"; "positive"]%string) a b =
     oppositeOutcome
       (groupComparer (ascendingGroups toStringPrototype) signKey
          (orderComparer ["negative"; "positive"]%string) b a)).
Proof.
  pose proof (@exported_comparers_antisymmetric codeUnitHost)
    as (Hprim & Hhost & _ & _ & _ & Hwrap & Hchain & Horder & Hgroup).
  split; [|split].
  - apply (Hhost codeUnitHost_antisym).
  - apply Hchain. repeat constructor.
    + apply Hprim.
    + apply (Hwrap bool compareBoolean), Hprim.
  - intros a b. apply Hgroup.
    + apply Horder.
    + apply signKey_order_strict.
    + intros key comparer Hl. apply ascendingGroups_lookup in Hl as ->. apply Hprim.
    + left. unfold signKey. destruct (a <? 0)%float; vm_compute; eauto.
Defined.

(** C8 (as stated, refuted): a digit run is not converted to its integer
    value but to the number nearest to it.  The runs ["9007199254740993"] and
    ["9007199254740992"] denote different integers ([2^53 + 1] and [2^53]),
    yet both become the same token, and the two strings compare equal where
    their integer values compare as [1]. *)
Lemma compareStringNatural_integer_value_counterexample :
  specTokens "9007199254740993" = [integerToken 9007199254740993] /\
  specTokens "9007199254740992" = [integerToken 9007199254740992] /\
  Z.sgn (9007199254740993 - 9007199254740992) = 1 /\
  naturalTokens "9007199254740993" = naturalTokens "9007199254740992" /\
  @compareStringNatural codeUnitHost "9007199254740993" "9007199254740992" = 0.
Proof. vm_compute. repeat split. Qed.

(** C8 (amended): [compareStringNatural] cuts each string into alternating
    runs of decimal digits (the characters [0] to [9]) and runs of other
    characters.  A run of digits becomes the number nearest to the integer it
    denotes, which is that integer when it is below [2^53], where the numbers
    compare as the integers do; a run of other characters is kept as text.
    The two token sequences are compared element by element with numbers
    before text; a stable sort of [["a10", "a2", "a1"]] gives
    [["a1", "a2", "a10"]], and so does every sort routine. *)
Theorem compareStringNatural_tokens `{Host} :
  (forall value, naturalTokens value = map numberOfToken (specTokens value))
  /\
  (forall value,
     joinRuns (specRuns value) = value /\
     Forall specRunWellFormed (specRuns value) /\
     specRunsAlternate (specRuns value))
  /\
  (forall x y,
     0 <= x < 2 ^ 53 -> 0 <= y < 2 ^ 53 ->
     compareNumber (number_of_Z x) (number_of_Z y) = Z.sgn (x - y))
  /\
  (forall a b,
     compareStringNatural a b =
     arrayComparer compareNumberOrString
       (map numberOfToken (specTokens a)) (map numberOfToken (specTokens b)))
  /\
  (forall a b,
     compareNumberOrString a b =
     match a, b with
     | num x, num y => compareNumber x y
     | num _, str _ => -1
     | str _, num _ => 1
     | str x, str y => compareString x y
     end)
  /\
  (HostReflexive ->
   toSorted compareStringNatural ["a10"; "a2"; "a1"]%string = ["a1"; "a2"; "a10"]%string /\
   (forall output,
      isSortOf compareStringNatural ["a10"; "a2"; "a1"]%string output ->
      output = ["a1"; "a2"; "a10"]%string)).
Proof.
  repeat apply conj.
  - apply naturalTokens_specTokens.
  - apply specRuns_wellFormed.
  - apply compareNumber_number_of_Z.
  - intros a b. rewrite <- !naturalTokens_specTokens. reflexivity.
  - apply compareNumberOrString_cases.
  - intros Hh.
    destruct (compareStringNatural_example Hh) as (H12 & H21 & H1t & Ht1 & H2t & Ht2).
    assert (Hsorted : toSorted compareStringNatural ["a10"; "a2"; "a1"]%string =
                      ["a1"; "a2"; "a10"]%string).
    { unfold toSorted. simpl. rewrite H21. simpl. rewrite Ht1. simpl. rewrite Ht2.
      reflexivity. }
    split; [exact Hsorted|].
    intros output. apply isSortOf_unique.
    + intros x y Hx Hy Hxy Hyx. simpl in Hx, Hy.
      repeat (destruct Hx as [<- | Hx]; [|]); try contradiction;
        repeat (destruct Hy as [<- | Hy]; [|]); try contradiction;
        try reflexivity; exfalso;
        rewrite ?H12, ?H21, ?H1t, ?Ht1, ?H2t, ?Ht2 in Hxy, Hyx; lia.
    + split.
      * rewrite <- Hsorted. apply toSorted_permutation.
      * repeat constructor; rewrite ?H12, ?H1t, ?H2t; lia.
Qed.

Lemma compareStringNatural_tokens_witness :
  naturalTokens "a10b9" =
    [str "a"; num (number_of_Z 10); str "b"; num (number_of_Z 9)] /\
  compareNumber (number_of_Z 9) (number_of_Z 10) = -1 /\
  toSorted (@compareStringNatural codeUnitHost) ["a10"; "a2"; "a1"]%string =
    ["a1"; "a2"; "a10"]%string.
Proof.
  pose proof (@compareStringNatural_tokens codeUnitHost)
    as (Htokens & _ & Hnumbers & _ & _ & Hsort).
  split; [|split].
  - exact (Htokens "a10b9"%string).
  - apply (Hnumbers 9 10); split; (lia || (vm_compute; reflexivity)).
  - apply (proj1 (Hsort codeUnitHost_refl)).
Defined.

(** C9: [nullableFirstComparer(c)] and [nullableLastComparer(c)] call the
    wrapped comparer [c] only when both arguments are neither [null] nor
    [undefined]: the instrumented comparers return the same results as the
    plain ones, and the calls they record are the single call on [(a, b)] when
    both are present and none otherwise, so no recorded call has a nullable
    argument. *)
Theorem nullable_comparers_call_on_present_only {T} (c : Comparer T) (a b : Nullable T) :
  fst (nullableFirstComparerTraced c a b) = nullableFirstComparer c a b /\
  fst (nullableLastComparerTraced c a b) = nullableLastComparer c a b /\
  snd (nullableFirstComparerTraced c a b) =
    (if negb (isNullable a) && negb (isNullable b) then [(a, b)] else []) /\
  snd (nullableLastComparerTraced c a b) =
    (if negb (isNullable a) && negb (isNullable b) then [(a, b)] else []) /\
  Forall (fun call => isNullable (fst call) = false /\ isNullable (snd call) = false)
    (snd (nullableFirstComparerTraced c a b) ++ snd (nullableLastComparerTraced c a b)).
Proof.
  destruct a, b; simpl; repeat split; repeat constructor.
Qed.

(** C10: reflexivity, [compare(a, a) = 0], holds for every exported comparer:
    [compareNumber] on every number (NaN and the infinities included),
    [compareBoolean], [orderComparer] for any ordering, the string comparers
    when the host's comparison is reflexive, and the comparers built by a
    combinator when the supplied comparers are reflexive ([groupComparer] on
    the values whose key has an entry in the table). *)
Theorem exported_comparers_reflexive `{Host} :
  (ComparerReflexive compareFiniteNumber /\
   ComparerReflexive compareNumber /\
   ComparerReflexive compareNanFirst /\
   ComparerReflexive comparePositiveInfinityFirst /\
   ComparerReflexive compareNegativeInfinityFirst /\
   ComparerReflexive compareBoolean /\
   ComparerReflexive compareDate /\
   (forall T, ComparerReflexive (@compareNullableFirst T)))
  /\
  (compareNumber nan nan = 0 /\
   compareNumber infinity infinity = 0 /\
   compareNumber neg_infinity neg_infinity = 0)
  /\
  (HostReflexive ->
   ComparerReflexive compareString /\
   (forall locale, ComparerReflexive (localeComparer locale)) /\
   ComparerReflexive compareNumberOrString /\
   ComparerReflexive compareStringNatural)
  /\
  (forall collator,
     CollatorReflexive collator -> ComparerReflexive (collatorComparer collator))
  /\
  (forall T (p : T -> bool) (t f : Comparer T),
     ComparerReflexive t -> ComparerReflexive f ->
     ComparerReflexive (conditionFirstComparer p t f) /\
     ComparerReflexive (conditionTypeFirstComparer p t f))
  /\
  (forall T (strictEquals : T -> T -> bool) (value : T),
     ComparerReflexive (constFirstComparer strictEquals value))
  /\
  (forall T (c : Comparer T),
     ComparerReflexive c ->
     ComparerReflexive (nullableFirstComparer c) /\
     ComparerReflexive (nullableLastComparer c) /\
     ComparerReflexive (invertComparer c) /\
     ComparerReflexive (arrayComparer c) /\
     (forall TIn (mapper : TIn -> T), ComparerReflexive (mapComparer c mapper)))
  /\
  (forall T (comparers : list (Comparer T)),
     Forall ComparerReflexive comparers -> ComparerReflexive (chainComparers comparers))
  /\
  (forall T (EqT : EqDecision T) (CountT : Countable T) (ordering : list T),
     ComparerReflexive (orderComparer ordering))
  /\
  (forall TKey (EqK : EqDecision TKey) (CountK : Countable TKey) TValue TOther
          (compareFns : ComparerTable TKey TValue TOther) (keyFn : TValue -> TKey)
          (keyCompareFn : Comparer TKey) (a : TValue) (comparer : Comparer TValue),
     ComparerReflexive keyCompareFn ->
     entries compareFns !! keyFn a = Some comparer -> ComparerReflexive comparer ->
     groupComparer compareFns keyFn keyCompareFn a a = returns 0).
Proof.
  repeat apply conj.
  - apply compareFiniteNumber_refl.
  - apply compareNumber_refl.
  - apply compareNanFirst_refl.
  - apply constFirstComparer_refl.
  - apply constFirstComparer_refl.
  - apply compareBoolean_refl.
  - apply compareDate_refl.
  - intros T. apply compareNullableFirst_refl.
  - apply compareNumber_refl.
  - apply compareNumber_refl.
  - apply compareNumber_refl.
  - intros Hh. repeat apply conj.
    + now apply compareString_refl.
    + intros locale. now apply localeComparer_refl.
    + now apply compareNumberOrString_refl.
    + now apply compareStringNatural_refl.
  - apply collatorComparer_refl.
  - intros T p t f Ht Hf. split.
    + now apply conditionFirstComparer_refl.
    + apply conditionTypeFirstComparer_refl; auto.
  - intros T strictEquals value. apply constFirstComparer_refl.
  - intros T c Hc. repeat apply conj.
    + now apply nullableFirstComparer_refl.
    + now apply nullableLastComparer_refl.
    + now apply invertComparer_refl.
    + now apply arrayComparer_refl.
    + intros TIn mapper. now apply mapComparer_refl.
  - intros T comparers. apply chainComparers_refl.
  - intros T EqT CountT ordering. apply orderComparer_refl.
  - intros TKey EqK CountK TValue TOther compareFns keyFn keyCompareFn a comparer.
    apply groupComparer_refl.
Qed.

Lemma exported_comparers_reflexive_witness :
  ComparerReflexive (@compareStringNatural codeUnitHost) /\
  ComparerReflexive (nullableLastComparer (arrayComparer compareNumber)) /\
  groupComparer (ascendingGroups toStringPrototype) signKey
    (orderComparer ["negative"; "positive"]%string) 1%float 1%float = returns 0.
Proof.
  pose proof (@exported_comparers_reflexive codeUnitHost)
    as (Hprim & _ & Hhost & _ & _ & _ & Hwrap & _ & Horder & Hgroup).
  split; [|split].
  - apply (Hhost codeUnitHost_refl).
  - destruct Hprim as (_ & HcompareNumber & _).
    destruct (Hwrap float compareNumber HcompareNumber) as (_ & _ & _ & Harray & _).
    destruct (Hwrap (list float) (arrayComparer compareNumber) Harray) as (_ & Hlast & _).
    exact Hlast.
  - apply (Hgroup string _ _ float string (ascendingGroups toStringPrototype) signKey _
             1%float compareNumber).
    + apply Horder.
    + reflexivity.
    + apply Hprim.
Defined.

(** * Further properties of the library *)

(** ** The order of the finite numbers *)

Lemma SFcompare_value (x y : spec_float) :
  valid_binary x = true -> valid_binary y = true ->
  SFfinite x = true -> SFfinite y = true ->
  threeWay (SFcompare x y) = Z.sgn (SFvalue x - SFvalue y).
Proof.
  intros Vx Vy Fx Fy. rewrite <- SFsub_sign by assumption.
  destruct x as [sx|sx| |sx mx ex], y as [sy|sy| |sy my ey]; try discriminate.
  - destruct sx, sy; reflexivity.
  - simpl in Vy. unfold bounded in Vy. apply andb_true_iff in Vy as [Cy _].
    pose proof (canonical_mantissa_inv _ _ Cy) as (Hey & _).
    assert (0 < 2 ^ (ey + 1074)) by (apply Z.pow_pos_nonneg; lia).
    destruct sy; simpl; symmetry;
      first [apply Z.sgn_pos_iff | apply Z.sgn_neg_iff]; nia.
  - simpl in Vx. unfold bounded in Vx. apply andb_true_iff in Vx as [Cx _].
    pose proof (canonical_mantissa_inv _ _ Cx) as (Hex & _).
    assert (0 < 2 ^ (ex + 1074)) by (apply Z.pow_pos_nonneg; lia).
    destruct sx; simpl; symmetry;
      first [apply Z.sgn_pos_iff | apply Z.sgn_neg_iff]; nia.
  - simpl in Vx, Vy. unfold bounded in Vx, Vy.
    apply andb_true_iff in Vx as [Cx _]. apply andb_true_iff in Vy as [Cy _].
    pose proof (canonical_mantissa_inv _ _ Cx) as (Hex & _).
    pose proof (canonical_mantissa_inv _ _ Cy) as (Hey & _).
    unfold SFsub. rewrite binary_normalize_sign by lia.
    rewrite !shl_align_fst by lia. unfold SFvalue.
    set (ez := Z.min ex ey).
    assert (Hx : Z.pos mx * 2 ^ (ex + 1074) = Z.pos mx * 2 ^ (ex - ez) * 2 ^ (ez + 1074)).
    { rewrite <- Z.mul_assoc, <- Z.pow_add_r by lia. f_equal. f_equal. lia. }
    assert (Hy : Z.pos my * 2 ^ (ey + 1074) = Z.pos my * 2 ^ (ey - ez) * 2 ^ (ez + 1074)).
    { rewrite <- Z.mul_assoc, <- Z.pow_add_r by lia. f_equal. f_equal. lia. }
    rewrite Hx, Hy.
    assert (Hp : 0 < 2 ^ (ez + 1074)) by (apply Z.pow_pos_nonneg; lia).
    generalize dependent (2 ^ (ez + 1074)). intros scale _ _ Hp.
    generalize (Z.pos mx * 2 ^ (ex - ez)) (Z.pos my * 2 ^ (ey - ez)). intros vx vy.
    replace (cond_Zopp sx (vx * scale) - cond_Zopp sy (vy * scale))
      with ((cond_Zopp sx vx - cond_Zopp sy vy) * scale)
      by (destruct sx, sy; simpl; ring).
    rewrite Z.sgn_mul, (Z.sgn_pos scale) by assumption. lia.
Qed.

Lemma ascending_value (a b : float) :
  is_finite a = true -> is_finite b = true ->
  ascending a b = Z.sgn (SFvalue (Prim2SF a) - SFvalue (Prim2SF b)).
Proof.
  intros Ha Hb. rewrite ascending_spec. rewrite is_finite_spec in Ha, Hb.
  apply SFcompare_value; auto using Prim2SF_valid.
Qed.

Lemma sgn_nonpos (x : Z) : Z.sgn x <= 0 <-> x <= 0.
Proof. destruct x; simpl; lia. Qed.

Lemma numberRank_two_finite (a : float) : numberRank a = 2 -> is_finite a = true.
Proof.
  intros Hr. destruct (numberRank_classes a) as (_ & _ & -> & _). now rewrite Hr.
Qed.

Lemma compareNumber_transitive : ComparerTransitive compareNumber.
Proof.
  intros a b c. rewrite !compareNumber_rank.
  destruct (Z.compare_spec (numberRank a) (numberRank b)) as [Eab | Lab | Gab];
    destruct (Z.compare_spec (numberRank b) (numberRank c)) as [Ebc | Lbc | Gbc];
    destruct (Z.compare_spec (numberRank a) (numberRank c)) as [Eac | Lac | Gac];
    try lia.
  rewrite <- Eab. destruct (Z.eqb_spec (numberRank a) 2) as [Ha | Ha]; [|lia].
  pose proof (numberRank_two_finite a Ha) as Fa.
  pose proof (numberRank_two_finite b ltac:(lia)) as Fb.
  pose proof (numberRank_two_finite c ltac:(lia)) as Fc.
  rewrite !ascending_value by assumption. rewrite !sgn_nonpos. lia.
Qed.

Lemma compareNumber_zero (a b : float) :
  (compareNumber a b =? 0) = (is_nan a && is_nan b) || (a =? b)%float.
Proof.
  rewrite compareNumber_rank, ascending_spec. unfold numberRank.
  rewrite !is_nan_spec, !eqb_neg_infinity_spec, !eqb_infinity_spec, FloatAxioms.eqb_spec.
  unfold SFeqb.
  destruct (Prim2SF a) as [sa|sa| |sa ma ea], (Prim2SF b) as [sb|sb| |sb mb eb];
    try destruct sa; try destruct sb; try reflexivity;
    simpl; destruct (IntDef.Z.compare ea eb); try reflexivity;
    destruct (PosDef.Pos.compare_cont Eq ma mb); reflexivity.
Qed.

(** ** Results in range *)

Lemma sign_in_range (value : float) : sign value = -1 \/ sign value = 0 \/ sign value = 1.
Proof.
  unfold sign. destruct (0 <? value)%float; [auto|].
  destruct (value <? 0)%float; auto.
Qed.

Lemma conditionFirstComparer_in_range {T} (p : T -> bool) (t f : Comparer T) :
  ComparerInRange t -> ComparerInRange f -> ComparerInRange (conditionFirstComparer p t f).
Proof.
  intros Ht Hf a b. rewrite conditionFirstComparer_cases.
  destruct (p a), (p b); auto.
Qed.

Lemma compareEqual_in_range {T} : ComparerInRange (@compareEqual T).
Proof. intros a b. auto. Qed.

Lemma chainComparers_in_range {T} (comparers : list (Comparer T)) :
  Forall ComparerInRange comparers -> ComparerInRange (chainComparers comparers).
Proof.
  intros Hall a b. induction Hall as [|comparer rest Hc _ IH]; simpl.
  - auto.
  - destruct (Z.eqb_spec (comparer a b) 0); simpl; [exact IH | apply Hc].
Qed.

Lemma compareFiniteNumber_in_range : ComparerInRange compareFiniteNumber.
Proof.
  intros a b. unfold compareFiniteNumber.
  destruct (isFinite a && isFinite b); [apply sign_in_range | auto].
Qed.

Lemma compareNumber_in_range : ComparerInRange compareNumber.
Proof.
  apply chainComparers_in_range.
  apply List.Forall_cons; [|apply List.Forall_cons; [|apply List.Forall_cons; [|apply List.Forall_cons; [|apply List.Forall_nil]]]].
  - apply conditionFirstComparer_in_range; apply compareEqual_in_range.
  - apply conditionFirstComparer_in_range; apply compareEqual_in_range.
  - intros a b. apply (conditionFirstComparer_in_range _ _ _
      compareEqual_in_range compareEqual_in_range b a).
  - apply compareFiniteNumber_in_range.
Qed.

Lemma arrayComparerFrom_in_range {T} (itemComparer : Comparer T) (a b : list T) :
  ComparerInRange itemComparer ->
  forall remaining index,
    arrayComparerFrom itemComparer remaining index a b = -1 \/
    arrayComparerFrom itemComparer remaining index a b = 0 \/
    arrayComparerFrom itemComparer remaining index a b = 1.
Proof.
  intros Hc. induction remaining as [|remaining IH]; intros index; simpl.
  - apply compareNumber_in_range.
  - destruct (a !! index) as [x|]; [|apply compareNumber_in_range].
    destruct (b !! index) as [y|]; [|apply compareNumber_in_range].
    destruct (Z.eqb_spec (itemComparer x y) 0); simpl; [apply IH | apply Hc].
Qed.

(** X1: every exported comparer returns [-1], [0] or [1]: the primitive
    comparers whatever the host's comparison returns ([sign] normalises it),
    and the comparers built by a combinator when the supplied comparers do;
    [groupComparer] does when the key comparer decides or the key of its
    first argument has an entry in the table. *)
Theorem exported_comparers_in_range `{Host} :
  (ComparerInRange compareFiniteNumber /\
   ComparerInRange compareNumber /\
   ComparerInRange compareNanFirst /\
   ComparerInRange comparePositiveInfinityFirst /\
   ComparerInRange compareNegativeInfinityFirst /\
   ComparerInRange compareBoolean /\
   ComparerInRange compareDate /\
   ComparerInRange compareString /\
   ComparerInRange compareNumberOrString /\
   ComparerInRange compareStringNatural /\
   (forall locale, ComparerInRange (localeComparer locale)) /\
   (forall collator, ComparerInRange (collatorComparer collator)) /\
   (forall T, ComparerInRange (@compareNullableFirst T)) /\
   (forall T (strictEquals : T -> T -> bool) (value : T),
      ComparerInRange (constFirstComparer strictEquals value)) /\
   (forall T (EqT : EqDecision T) (CountT : Countable T) (ordering : list T),
      ComparerInRange (orderComparer ordering)))
  /\
  (forall T (p : T -> bool) (t f : Comparer T),
     ComparerInRange t -> ComparerInRange f ->
     ComparerInRange (conditionFirstComparer p t f) /\
     ComparerInRange (conditionTypeFirstComparer p t f))
  /\
  (forall T (c : Comparer T),
     ComparerInRange c ->
     ComparerInRange (nullableFirstComparer c) /\
     ComparerInRange (nullableLastComparer c) /\
     ComparerInRange (invertComparer c) /\
     ComparerInRange (arrayComparer c) /\
     (forall TIn (mapper : TIn -> T), ComparerInRange (mapComparer c mapper)))
  /\
  (forall T (comparers : list (Comparer T)),
     Forall ComparerInRange comparers -> ComparerInRange (chainComparers comparers))
  /\
  (forall TKey (EqK : EqDecision TKey) (CountK : Countable TKey) TValue TOther
          (compareFns : ComparerTable TKey TValue TOther) (keyFn : TValue -> TKey)
          (keyCompareFn : Comparer TKey),
     ComparerInRange keyCompareFn ->
     (forall key comparer,
        entries compareFns !! key = Some comparer -> ComparerInRange comparer) ->
     forall a b,
       keyCompareFn (keyFn a) (keyFn b) <> 0 \/ is_Some (entries compareFns !! keyFn a) ->
       exists result,
         groupComparer compareFns keyFn keyCompareFn a b = returns result /\
         (result = -1 \/ result = 0 \/ result = 1)).
Proof.
  assert (HnumStr : ComparerInRange compareNumberOrString).
  { intros a b. rewrite compareNumberOrString_cases. destruct a, b; auto.
    - apply compareNumber_in_range.
    - apply sign_in_range. }
  repeat apply conj.
  - apply compareFiniteNumber_in_range.
  - apply compareNumber_in_range.
  - apply conditionFirstComparer_in_range; apply compareEqual_in_range.
  - apply conditionFirstComparer_in_range; apply compareEqual_in_range.
  - apply conditionFirstComparer_in_range; apply compareEqual_in_range.
  - intros [] []; simpl; auto.
  - intros a b. apply compareFiniteNumber_in_range.
  - intros a b. apply sign_in_range.
  - exact HnumStr.
  - intros a b. now apply arrayComparerFrom_in_range.
  - intros locale a b. apply sign_in_range.
  - intros collator a b. apply sign_in_range.
  - intros T a b. unfold compareNullableFirst. rewrite nullableFirstComparer_cases.
    destruct a, b; auto.
  - intros T strictEquals value.
    apply conditionFirstComparer_in_range; apply compareEqual_in_range.
  - intros T EqT CountT ordering a b. apply sign_in_range.
  - intros T p t f Ht Hf. split; [now apply conditionFirstComparer_in_range|].
    intros a b. rewrite conditionTypeFirstComparer_cases. destruct (p a), (p b); auto.
  - intros T c Hc. repeat apply conj.
    + intros a b. rewrite nullableFirstComparer_cases. destruct a, b; auto.
    + intros a b. rewrite nullableLastComparer_cases. destruct a, b; auto.
    + intros a b. apply Hc.
    + intros a b. now apply arrayComparerFrom_in_range.
    + intros TIn mapper a b. apply Hc.
  - intros T comparers. apply chainComparers_in_range.
  - intros TKey EqK CountK TValue TOther compareFns keyFn keyCompareFn Hk Hfns a b Hdomain.
    destruct (Z.eq_dec (keyCompareFn (keyFn a) (keyFn b)) 0) as [Hz | Hnz].
    + destruct Hdomain as [Hnz | [comparer Hl]]; [contradiction|].
      exists (comparer a b). split.
      * rewrite groupComparer_zero by assumption. now apply callEntry_own.
      * now apply (Hfns (keyFn a)).
    + exists (keyCompareFn (keyFn a) (keyFn b)). split.
      * now apply groupComparer_nonzero.
      * apply Hk.
Qed.

Lemma exported_comparers_in_range_witness :
  ComparerInRange (chainComparers [compareBoolean; invertComparer compareBoolean]) /\
  ComparerInRange (nullableLastComparer (@compareStringNatural codeUnitHost)).
Proof.
  pose proof (@exported_comparers_in_range codeUnitHost) as (Hprim & _ & Hwrap & Hchain & _).
  destruct Hprim as (_ & _ & _ & _ & _ & Hbool & _ & _ & _ & Hnatural & _).
  split.
  - apply Hchain. apply List.Forall_cons; [exact Hbool|]. apply List.Forall_cons; [|apply List.Forall_nil].
    destruct (Hwrap bool compareBoolean Hbool) as (_ & _ & Hinv & _). exact Hinv.
  - destruct (Hwrap string compareStringNatural Hnatural) as (_ & Hlast & _). exact Hlast.
Defined.

(** ** Total preorders *)

(** X2: [compareNumber] is a total preorder on all numbers, NaN and the
    infinities included: it is anti-symmetric and transitive, so every sort
    routine orders with it consistently.  It returns [0] exactly when both
    arguments are NaN or [a === b]. *)
Theorem compareNumber_total_preorder :
  ComparerConsistent compareNumber /\
  (forall a b : float,
     (compareNumber a b =? 0) = (is_nan a && is_nan b) || (a =? b)%float).
Proof.
  split; [split|].
  - apply compareNumber_antisym.
  - apply compareNumber_transitive.
  - apply compareNumber_zero.
Qed.

(** X3: on finite numbers [compareFiniteNumber] is [compareNumber], hence
    transitive there; on all numbers it is not transitive, because a value
    that is not finite compares equal to every number: [2] does not sort
    after NaN, NaN does not sort after [1], yet [2] sorts after [1]. *)
Theorem compareFiniteNumber_only_on_finite :
  (forall a b,
     is_finite a = true -> is_finite b = true ->
     compareFiniteNumber a b = compareNumber a b)
  /\
  (forall a b c,
     is_finite a = true -> is_finite b = true -> is_finite c = true ->
     compareFiniteNumber a b <= 0 -> compareFiniteNumber b c <= 0 ->
     compareFiniteNumber a c <= 0)
  /\
  (forall a b, is_finite a = false -> compareFiniteNumber a b = 0 /\ compareFiniteNumber b a = 0)
  /\
  ~ ComparerTransitive compareFiniteNumber.
Proof.
  assert (Hsame : forall a b, is_finite a = true -> is_finite b = true ->
                              compareFiniteNumber a b = compareNumber a b).
  { intros a b Ha Hb. rewrite compareFiniteNumber_finite, compareNumber_rank by assumption.
    destruct (numberRank_classes a) as (_ & _ & Hfa & _).
    destruct (numberRank_classes b) as (_ & _ & Hfb & _).
    rewrite Ha in Hfa. rewrite Hb in Hfb.
    symmetry in Hfa, Hfb. apply Z.eqb_eq in Hfa, Hfb. rewrite Hfa, Hfb. reflexivity. }
  repeat apply conj.
  - exact Hsame.
  - intros a b c Ha Hb Hc. rewrite !Hsame by assumption. apply compareNumber_transitive.
  - intros a b Ha. unfold compareFiniteNumber, isFinite. rewrite Ha.
    rewrite andb_false_r. split; reflexivity.
  - intros Htrans.
    assert (H1 : compareFiniteNumber 2%float nan <= 0) by (vm_compute; discriminate).
    assert (H2 : compareFiniteNumber nan 1%float <= 0) by (vm_compute; discriminate).
    pose proof (Htrans 2%float nan 1%float H1 H2) as H3.
    vm_compute in H3. now apply H3.
Qed.

Lemma compareFiniteNumber_only_on_finite_witness :
  compareFiniteNumber 1%float 2%float = compareNumber 1%float 2%float /\
  compareFiniteNumber 1%float 3%float <= 0 /\
  compareFiniteNumber infinity 3%float = 0.
Proof.
  pose proof compareFiniteNumber_only_on_finite as (Hsame & Htrans & Hother & _).
  split; [|split].
  - apply Hsame; reflexivity.
  - apply (Htrans 1%float 2%float 3%float); try reflexivity; vm_compute; discriminate.
  - apply (Hother infinity 3%float). reflexivity.
Defined.

(** ** Composition *)

Lemma chainComparers_zero_prefix {T} (xs ys : list (Comparer T)) (a b : T) :
  Forall (fun comparer => comparer a b = 0) xs ->
  chainComparers (xs ++ ys) a b = chainComparers ys a b.
Proof.
  intros Hall. induction Hall as [|comparer rest Hc _ IH]; simpl.
  - reflexivity.
  - rewrite Hc. simpl. exact IH.
Qed.

Lemma chainComparers_app {T} (xs ys : list (Comparer T)) (a b : T) :
  chainComparers (xs ++ ys) a b =
  if negb (chainComparers xs a b =? 0) then chainComparers xs a b
  else chainComparers ys a b.
Proof.
  induction xs as [|comparer rest IH]; simpl.
  - reflexivity.
  - destruct (Z.eqb_spec (comparer a b) 0) as [Hz | Hnz]; simpl.
    + exact IH.
    + destruct (Z.eqb_spec (comparer a b) 0); [contradiction | reflexivity].
Qed.

(** X4: [chainComparers] returns the result of the first comparer that does
    not answer [0], and [0] when all do.  It composes: chaining two chains is
    chaining the concatenated lists; a chain of one comparer is that comparer,
    and a comparer that always answers [0] can be dropped from a chain. *)
Theorem chainComparers_first_nonzero {T} (xs ys : list (Comparer T)) (c : Comparer T)
    (a b : T) :
  (Forall (fun comparer => comparer a b = 0) xs -> c a b <> 0 ->
   chainComparers (xs ++ c :: ys) a b = c a b)
  /\
  (Forall (fun comparer => comparer a b = 0) xs -> chainComparers xs a b = 0)
  /\
  chainComparers (xs ++ ys) a b =
    chainComparers [chainComparers xs; chainComparers ys] a b
  /\
  chainComparers [c] a b = c a b
  /\
  chainComparers (xs ++ compareEqual :: ys) a b = chainComparers (xs ++ ys) a b.
Proof.
  repeat apply conj.
  - intros Hzero Hne. rewrite chainComparers_zero_prefix by assumption. simpl.
    destruct (Z.eqb_spec (c a b) 0); [contradiction | reflexivity].
  - intros Hzero. rewrite <- (app_nil_r xs).
    now rewrite chainComparers_zero_prefix.
  - rewrite chainComparers_app. simpl.
    destruct (Z.eqb_spec (chainComparers xs a b) 0); simpl; [|reflexivity].
    destruct (Z.eqb_spec (chainComparers ys a b) 0) as [-> | Hne]; reflexivity.
  - simpl. destruct (Z.eqb_spec (c a b) 0) as [-> | Hne]; reflexivity.
  - rewrite !chainComparers_app. reflexivity.
Qed.

Lemma chainComparers_first_nonzero_witness :
  chainComparers [compareNanFirst; compareNumber; compareFiniteNumber]
    1%float 0%float = compareNumber 1%float 0%float /\
  chainComparers [compareNanFirst] 1%float 0%float = 0.
Proof.
  split.
  - apply (proj1 (chainComparers_first_nonzero [compareNanFirst] [compareFiniteNumber]
                    compareNumber 1%float 0%float)).
    + repeat constructor.
    + vm_compute. discriminate.
  - apply (proj1 (proj2 (chainComparers_first_nonzero [compareNanFirst] []
                           compareEqual 1%float 0%float))).
    repeat constructor.
Defined.

Lemma consistent_zero_trans {T} (c : Comparer T) (x y z : T) :
  ComparerConsistent c -> c x y = 0 -> c y z = 0 -> c x z = 0.
Proof.
  intros [Ha Ht] Hxy Hyz.
  pose proof (Ht x y z). pose proof (Ht z y x).
  pose proof (Ha x y). pose proof (Ha y z). pose proof (Ha x z). lia.
Qed.

Lemma chainComparers_transitive {T} (comparers : list (Comparer T)) :
  Forall ComparerConsistent comparers -> ComparerTransitive (chainComparers comparers).
Proof.
  intros Hall x y z. induction Hall as [|c rest Hc _ IH]; simpl.
  - lia.
  - destruct Hc as [Ha Ht].
    pose proof (Ht x y z). pose proof (Ht z x y). pose proof (Ht y z x).
    pose proof (Ht z y x). pose proof (Ht y x z). pose proof (Ht x z y).
    pose proof (Ha x y). pose proof (Ha y z). pose proof (Ha x z).
    destruct (Z.eqb_spec (c x y) 0), (Z.eqb_spec (c y z) 0), (Z.eqb_spec (c x z) 0);
      simpl; lia.
Qed.

(** X5: a chain of consistent comparers (anti-symmetric and transitive) is
    consistent: [chainComparers] builds a total preorder, the lexicographic
    one, out of total preorders. *)
Theorem chainComparers_consistent {T} (comparers : list (Comparer T)) :
  Forall ComparerConsistent comparers -> ComparerConsistent (chainComparers comparers).
Proof.
  intros Hall. split.
  - apply chainComparers_antisym. eapply List.Forall_impl; [|exact Hall].
    intros c [Ha _]. exact Ha.
  - now apply chainComparers_transitive.
Qed.

Lemma compareBoolean_consistent : ComparerConsistent compareBoolean.
Proof.
  split; [apply compareBoolean_antisym|].
  intros [] [] []; vm_compute; intros; congruence.
Qed.

Lemma compareNumber_consistent : ComparerConsistent compareNumber.
Proof. split; [apply compareNumber_antisym | apply compareNumber_transitive]. Qed.

Lemma chainComparers_consistent_witness :
  ComparerConsistent
    (chainComparers [mapComparer compareBoolean fst; mapComparer compareNumber snd]).
Proof.
  apply chainComparers_consistent.
  apply List.Forall_cons; [|apply List.Forall_cons; [|apply List.Forall_nil]].
  - split.
    + apply mapComparer_antisym, compareBoolean_antisym.
    + intros a b c. apply compareBoolean_consistent.
  - split.
    + apply mapComparer_antisym, compareNumber_antisym.
    + intros a b c. apply compareNumber_transitive.
Defined.

(** X6: the partitioning combinators keep consistency: for consistent
    sub-comparers, [conditionFirstComparer], [conditionTypeFirstComparer],
    [nullableFirstComparer] and [nullableLastComparer] are anti-symmetric and
    transitive, and [constFirstComparer] always is. *)
Theorem partition_comparers_consistent {T} (p : T -> bool) (t f : Comparer T)
    (strictEquals : T -> T -> bool) (value : T) :
  ComparerConsistent t -> ComparerConsistent f ->
  ComparerConsistent (conditionFirstComparer p t f) /\
  ComparerConsistent (conditionTypeFirstComparer p t f) /\
  ComparerConsistent (nullableFirstComparer t) /\
  ComparerConsistent (nullableLastComparer t) /\
  ComparerConsistent (constFirstComparer strictEquals value).
Proof.
  intros [Hta Htt] [Hfa Hft]. repeat apply conj.
  - now apply conditionFirstComparer_antisym.
  - intros a b c. rewrite !conditionFirstComparer_cases.
    destruct (p a), (p b), (p c); try lia; [apply Htt | apply Hft].
  - apply conditionTypeFirstComparer_antisym; auto.
  - intros a b c. rewrite !conditionTypeFirstComparer_cases.
    destruct (p a), (p b), (p c); try lia; [apply Htt | apply Hft].
  - now apply nullableFirstComparer_antisym.
  - intros a b c. rewrite !nullableFirstComparer_cases.
    destruct a, b, c; try lia. apply Htt.
  - now apply nullableLastComparer_antisym.
  - intros a b c. rewrite !nullableLastComparer_cases.
    destruct a, b, c; try lia. apply Htt.
  - apply constFirstComparer_antisym.
  - intros a b c. unfold constFirstComparer. rewrite !conditionFirstComparer_cases.
    unfold compareEqual.
    destruct (strictEquals a value), (strictEquals b value), (strictEquals c value); lia.
Qed.

Lemma compareEqual_consistent {T} : ComparerConsistent (@compareEqual T).
Proof. split; [apply compareEqual_antisym | intros a b c; unfold compareEqual; lia]. Qed.

Lemma partition_comparers_consistent_witness :
  ComparerConsistent (nullableLastComparer compareNumber) /\
  ComparerConsistent (conditionFirstComparer isNaN compareEqual compareNumber).
Proof.
  split.
  - exact (proj1 (proj2 (proj2 (proj2
      (partition_comparers_consistent isNaN compareNumber compareNumber PrimFloat.eqb
         infinity compareNumber_consistent compareNumber_consistent))))).
  - exact (proj1
      (partition_comparers_consistent isNaN compareEqual compareNumber PrimFloat.eqb
         infinity compareEqual_consistent compareNumber_consistent)).
Defined.

(** X7: [invertComparer] and [mapComparer] keep consistency.  Inverting an
    anti-symmetric comparer negates its result, inverting twice gives the
    comparer back, and inverting commutes with mapping. *)
Theorem invertComparer_mapComparer_consistent {T TIn} (c : Comparer T) (mapper : TIn -> T) :
  (forall a b, invertComparer (invertComparer c) a b = c a b)
  /\
  (forall a b,
     invertComparer (mapComparer c mapper) a b = mapComparer (invertComparer c) mapper a b)
  /\
  (ComparerAntisymmetric c -> forall a b, invertComparer c a b = - c a b)
  /\
  (ComparerConsistent c ->
   ComparerConsistent (invertComparer c) /\ ComparerConsistent (mapComparer c mapper)).
Proof.
  split; [reflexivity|]. split; [reflexivity|]. split.
  - intros Ha a b. unfold invertComparer. apply Ha.
  - intros [Ha Ht]. split; split.
    + now apply invertComparer_antisym.
    + intros x y z. unfold invertComparer. intros Hxy Hyz. apply (Ht z y x); assumption.
    + now apply mapComparer_antisym.
    + intros x y z. unfold mapComparer. apply Ht.
Qed.

Lemma invertComparer_mapComparer_consistent_witness :
  invertComparer compareNumber 1%float 2%float = - compareNumber 1%float 2%float /\
  ComparerConsistent (invertComparer compareNumber) /\
  ComparerConsistent (mapComparer compareNumber getTime).
Proof.
  pose proof (invertComparer_mapComparer_consistent compareNumber getTime)
    as (_ & _ & Hneg & Hcons).
  split; [|exact (Hcons compareNumber_consistent)].
  apply Hneg, compareNumber_antisym.
Defined.

(** X8: "nullable first" and "nullable last" are mirror images: inverting
    [nullableFirstComparer(c)] is [nullableLastComparer] of the inverted [c].
    On the same [c] the two comparers agree when both values are present or
    both absent, and are opposite when exactly one is absent; [null] and
    [undefined] compare equal in both. *)
Theorem nullable_first_last_mirror {T} (c : Comparer T) (a b : Nullable T) :
  invertComparer (nullableFirstComparer c) a b =
    nullableLastComparer (invertComparer c) a b
  /\
  nullableLastComparer c a b =
    (if xorb (isNullable a) (isNullable b) then - nullableFirstComparer c a b
     else nullableFirstComparer c a b)
  /\
  (if isNullable a && isNullable b
   then nullableFirstComparer c a b = 0 /\ nullableLastComparer c a b = 0
   else True).
Proof.
  unfold invertComparer.
  rewrite !nullableFirstComparer_cases, !nullableLastComparer_cases.
  destruct a, b; simpl; repeat split; reflexivity.
Qed.

Lemma eqb_nan_false (value : float) : (value =? nan)%float = false.
Proof.
  rewrite FloatAxioms.eqb_spec.
  replace (Prim2SF nan) with S754_nan by reflexivity.
  unfold SFeqb. destruct (Prim2SF value) as [s|s| |s m e]; reflexivity.
Qed.

(** X9: [constFirstComparer] matches with [===], so [constFirstComparer(NaN)]
    matches nothing and answers [0] on every pair of numbers; it is
    [compareNanFirst], built on [isNaN], that puts every NaN before every
    other number. *)
Theorem constFirstComparer_nan_matches_nothing :
  (forall a b, constFirstComparer PrimFloat.eqb nan a b = 0)
  /\
  (forall a b,
     is_nan a = true -> is_nan b = false ->
     compareNanFirst a b = -1 /\ compareNanFirst b a = 1).
Proof.
  split.
  - intros a b. unfold constFirstComparer. rewrite conditionFirstComparer_cases.
    rewrite !eqb_nan_false. reflexivity.
  - intros a b Ha Hb. unfold compareNanFirst. rewrite !conditionFirstComparer_cases.
    unfold isNaN. rewrite Ha, Hb. split; reflexivity.
Qed.

Lemma constFirstComparer_nan_matches_nothing_witness :
  compareNanFirst nan 1%float = -1 /\ compareNanFirst 1%float nan = 1.
Proof.
  apply (proj2 constFirstComparer_nan_matches_nothing nan 1%float); reflexivity.
Defined.

(** X10: in an ordering without duplicates, [orderComparer] compares two
    listed items as their positions in the list compare; and for every
    ordering (within the array length limit) it is consistent. *)
Theorem orderComparer_follows_positions `{Countable T} (ordering : list T) :
  Z.of_nat (length ordering) <= maxArrayLength ->
  ComparerConsistent (orderComparer ordering)
  /\
  (NoDup ordering ->
   forall i j a b,
     ordering !! i = Some a -> ordering !! j = Some b ->
     orderComparer ordering a b = Z.sgn (Z.of_nat i - Z.of_nat j)).
Proof.
  intros Hlen. split; [split|].
  - apply orderComparer_antisym.
  - intros a b c. rewrite !orderComparer_sign by assumption.
    rewrite !sgn_nonpos. lia.
  - intros Hnodup i j a b Hi Hj. rewrite orderComparer_sign by assumption.
    rewrite (orderIndexOf_last ordering a i), (orderIndexOf_last ordering b j); auto.
    + intros k Hk Hl. pose proof (NoDup_lookup _ _ _ _ Hnodup Hj Hl). lia.
    + intros k Hk Hl. pose proof (NoDup_lookup _ _ _ _ Hnodup Hi Hl). lia.
Qed.

Lemma orderComparer_follows_positions_witness :
  ComparerConsistent (orderComparer ["high"; "medium"; "low"]%string) /\
  orderComparer ["high"; "medium"; "low"]%string "low"%string "high"%string =
    Z.sgn (Z.of_nat 2 - Z.of_nat 0).
Proof.
  assert (Hlen : Z.of_nat (length ["high"; "medium"; "low"]%string) <= maxArrayLength)
    by (vm_compute; discriminate).
  pose proof (orderComparer_follows_positions ["high"; "medium"; "low"]%string Hlen)
    as [Hcons Hpos].
  split; [exact Hcons|].
  apply Hpos; [|reflexivity | reflexivity].
  repeat (apply NoDup_cons; split;
          [intros Hin; repeat (apply elem_of_cons in Hin as [Hin | Hin]; [discriminate|]);
           now apply elem_of_nil in Hin|]).
  apply NoDup_nil. exact I.
Defined.

(** X11: when the key comparer answers [0], [groupComparer] looks up the key
    of its first argument: an entry of the table shadows what the table
    inherits; without an entry an inherited function is called, and what it
    returns is returned ([undefined] and [null] as [0]), be it a comparison
    result or not.  It throws exactly when the key comparer answers [0], the
    table has no entry for that key, and nothing callable is inherited for it
    or the inherited function throws.  A missing entry for the second
    argument's key never matters. *)
Theorem groupComparer_throws_iff `{Countable TKey} {TValue TOther}
    (compareFns : ComparerTable TKey TValue TOther) (keyFn : TValue -> TKey)
    (keyCompareFn : Comparer TKey) (a b : TValue) :
  (groupComparer compareFns keyFn keyCompareFn a b = throws <->
   keyCompareFn (keyFn a) (keyFn b) = 0 /\
   entries compareFns !! keyFn a = None /\
   match inherited compareFns (keyFn a) with
   | Some (inheritedFunction call) => call a b = callThrows
   | Some inheritedValue => True
   | None => True
   end)
  /\
  (forall call value,
     keyCompareFn (keyFn a) (keyFn b) = 0 ->
     entries compareFns !! keyFn a = None ->
     inherited compareFns (keyFn a) = Some (inheritedFunction call) ->
     call a b = callReturnsOther value ->
     groupComparer compareFns keyFn keyCompareFn a b = returnsOther value)
  /\
  (forall call,
     keyCompareFn (keyFn a) (keyFn b) = 0 ->
     entries compareFns !! keyFn a = None ->
     inherited compareFns (keyFn a) = Some (inheritedFunction call) ->
     call a b = callReturnsNullish ->
     groupComparer compareFns keyFn keyCompareFn a b = returns 0)
  /\
  (forall value,
     groupComparer compareFns keyFn keyCompareFn a b = returnsOther value ->
     keyCompareFn (keyFn a) (keyFn b) = 0 /\ entries compareFns !! keyFn a = None)
  /\
  (groupComparer compareFns keyFn keyCompareFn a b =
   groupComparer {| entries := delete (keyFn b) (entries compareFns);
                    inherited := inherited compareFns |} keyFn keyCompareFn a b \/
   keyFn a = keyFn b).
Proof.
  split; [|split; [|split; [|split]]].
  - unfold groupComparer, callEntry.
    destruct (Z.eqb_spec (keyCompareFn (keyFn a) (keyFn b)) 0) as [Hz | Hnz]; simpl.
    + destruct (entries compareFns !! keyFn a) as [comparer|] eqn:Hl.
      * split; [discriminate | intros (_ & Hn & _); discriminate].
      * destruct (inherited compareFns (keyFn a)) as [[call|]|].
        -- destruct (call a b); split; first [discriminate | intros (_ & _ & ?); discriminate | auto].
        -- split; auto.
        -- split; auto.
    + split; [discriminate | intros [Hz _]; contradiction].
  - intros call value Hz Hentry Hinherited Hcall.
    rewrite groupComparer_zero by assumption. unfold callEntry.
    change (entries compareFns !! keyFn a = None) in Hentry.
    destruct (entries compareFns !! keyFn a); [discriminate|].
    rewrite Hinherited, Hcall. reflexivity.
  - intros call Hz Hentry Hinherited Hcall.
    rewrite groupComparer_zero by assumption. unfold callEntry.
    change (entries compareFns !! keyFn a = None) in Hentry.
    destruct (entries compareFns !! keyFn a); [discriminate|].
    rewrite Hinherited, Hcall. reflexivity.
  - intros value. unfold groupComparer, callEntry.
    destruct (Z.eqb_spec (keyCompareFn (keyFn a) (keyFn b)) 0) as [Hz | Hnz]; simpl.
    + destruct (entries compareFns !! keyFn a) as [comparer|] eqn:Hl; [discriminate|].
      intros _. split; [assumption | reflexivity].
    + discriminate.
  - destruct (decide (keyFn a = keyFn b)) as [Heq | Hne]; [now right | left].
    unfold groupComparer, callEntry. simpl.
    rewrite lookup_delete_ne by congruence. reflexivity.
Qed.

Lemma groupComparer_throws_iff_witness :
  groupComparer (ascendingGroups toStringPrototype) (fun _ => "toString"%string)
    compareEqual 1%float 2%float = returnsOther "[object Object]"%string /\
  groupComparer (ascendingGroups toStringPrototype) (fun _ => "zero"%string)
    compareEqual 1%float 2%float = throws.
Proof.
  split.
  - apply (proj1 (proj2 (groupComparer_throws_iff (ascendingGroups toStringPrototype)
      (fun _ => "toString"%string) compareEqual 1%float 2%float))
      (fun _ _ => callReturnsOther "[object Object]"%string)); reflexivity.
  - apply (proj1 (groupComparer_throws_iff (ascendingGroups toStringPrototype)
      (fun _ => "zero"%string) compareEqual 1%float 2%float)).
    repeat split.
Defined.

(** ** [arrayComparer] is the lexicographic order *)

Lemma arrayComparerFrom_cons {T} (itemComparer : Comparer T) (x y : T) (a b : list T) :
  compareNumber (number_of_nat (length (x :: a))) (number_of_nat (length (y :: b))) =
  compareNumber (number_of_nat (length a)) (number_of_nat (length b)) ->
  forall remaining index,
    arrayComparerFrom itemComparer remaining (S index) (x :: a) (y :: b) =
    arrayComparerFrom itemComparer remaining index a b.
Proof.
  intros Hlen. induction remaining as [|remaining IH]; intros index.
  - exact Hlen.
  - simpl arrayComparerFrom.
    change ((x :: a) !! S index) with (a !! index).
    change ((y :: b) !! S index) with (b !! index).
    destruct (a !! index) as [xi|]; [|exact Hlen].
    destruct (b !! index) as [yi|]; [|exact Hlen].
    rewrite IH. reflexivity.
Qed.

Lemma compareNumber_nats (n m : nat) :
  Z.of_nat n <= maxArrayLength -> Z.of_nat m <= maxArrayLength ->
  compareNumber (number_of_nat n) (number_of_nat m) = Z.sgn (Z.of_nat n - Z.of_nat m).
Proof.
  unfold maxArrayLength, number_of_nat. intros Hn Hm.
  assert (2 ^ 32 < 2 ^ 53) by (apply Z.pow_lt_mono_r; lia).
  apply compareNumber_number_of_Z; lia.
Qed.

Lemma arrayComparer_lexicographic {T} (itemComparer : Comparer T) (a b : list T) :
  Z.of_nat (length a) <= maxArrayLength -> Z.of_nat (length b) <= maxArrayLength ->
  arrayComparer itemComparer a b = lexicographic itemComparer a b.
Proof.
  revert b. induction a as [|x a IH]; intros b Ha Hb.
  - unfold arrayComparer. simpl arrayComparerFrom.
    rewrite compareNumber_nats by assumption.
    destruct b; simpl; first [reflexivity | apply Z.sgn_neg_iff; lia].
  - destruct b as [|y b].
    + unfold arrayComparer. simpl arrayComparerFrom.
      rewrite compareNumber_nats by assumption.
      simpl. first [reflexivity | apply Z.sgn_pos_iff; lia].
    + simpl in Ha, Hb.
      assert (Ha' : Z.of_nat (length a) <= maxArrayLength) by lia.
      assert (Hb' : Z.of_nat (length b) <= maxArrayLength) by lia.
      unfold arrayComparer. simpl length. rewrite <- Nat.succ_min_distr.
      simpl arrayComparerFrom.
      rewrite arrayComparerFrom_cons.
      * simpl lexicographic.
        destruct (negb (itemComparer x y =? 0)); [reflexivity|].
        apply (IH b Ha' Hb').
      * rewrite !compareNumber_nats by (simpl; lia).
        simpl length. f_equal. lia.
Qed.

Lemma lexicographic_prefix {T} (itemComparer : Comparer T) (a rest : list T) (y : T) :
  ComparerReflexive itemComparer ->
  lexicographic itemComparer a (a ++ y :: rest) = -1.
Proof.
  intros Hr. induction a as [|x a IH]; simpl.
  - reflexivity.
  - rewrite Hr. simpl. exact IH.
Qed.

Lemma lexicographic_transitive {T} (itemComparer : Comparer T) :
  ComparerConsistent itemComparer -> ComparerTransitive (lexicographic itemComparer).
Proof.
  intros [Ha Ht] a. induction a as [|x a IH]; intros b d.
  - destruct b, d; simpl; lia.
  - destruct b as [|y b], d as [|z d]; simpl; try lia.
    pose proof (Ht x y z). pose proof (Ht z x y). pose proof (Ht y z x).
    pose proof (Ht z y x). pose proof (Ht y x z). pose proof (Ht x z y).
    pose proof (Ha x y). pose proof (Ha y z). pose proof (Ha x z).
    pose proof (IH b d).
    destruct (Z.eqb_spec (itemComparer x y) 0), (Z.eqb_spec (itemComparer y z) 0),
      (Z.eqb_spec (itemComparer x z) 0); simpl; lia.
Qed.

(** X12: on arrays within the length limit [arrayComparer] is the
    lexicographic order: the empty array comes before every other array, two
    non-empty arrays are compared by their first items and, when these compare
    equal, by the rest; so an array comes before every array it is a proper
    prefix of. *)
Theorem arrayComparer_is_lexicographic {T} (c : Comparer T) (a b : list T) :
  Z.of_nat (length a) <= maxArrayLength -> Z.of_nat (length b) <= maxArrayLength ->
  arrayComparer c a b = lexicographic c a b
  /\
  (forall y rest,
     ComparerReflexive c -> b = a ++ y :: rest -> arrayComparer c a b = -1).
Proof.
  intros Ha Hb. split.
  - now apply arrayComparer_lexicographic.
  - intros y rest Hr ->. rewrite arrayComparer_lexicographic by assumption.
    now apply lexicographic_prefix.
Qed.

Lemma arrayComparer_is_lexicographic_witness :
  arrayComparer compareNumber [1; 2]%float [1; 2; 0]%float =
    lexicographic compareNumber [1; 2]%float [1; 2; 0]%float /\
  arrayComparer compareNumber [1; 2]%float [1; 2; 0]%float = -1.
Proof.
  assert (Ha : Z.of_nat (length [1; 2]%float) <= maxArrayLength) by (vm_compute; discriminate).
  assert (Hb : Z.of_nat (length [1; 2; 0]%float) <= maxArrayLength)
    by (vm_compute; discriminate).
  pose proof (arrayComparer_is_lexicographic compareNumber _ _ Ha Hb) as [Hlex Hprefix].
  split; [exact Hlex|].
  apply (Hprefix 0%float []); [apply compareNumber_refl | reflexivity].
Defined.

(** X13: for a consistent item comparer, [arrayComparer] is consistent on
    arrays within the length limit: anti-symmetric, and transitive. *)
Theorem arrayComparer_consistent {T} (c : Comparer T) (a b d : list T) :
  ComparerConsistent c ->
  Z.of_nat (length a) <= maxArrayLength -> Z.of_nat (length b) <= maxArrayLength ->
  Z.of_nat (length d) <= maxArrayLength ->
  arrayComparer c a b = - arrayComparer c b a /\
  (arrayComparer c a b <= 0 -> arrayComparer c b d <= 0 -> arrayComparer c a d <= 0).
Proof.
  intros Hc Ha Hb Hd. split.
  - apply arrayComparer_antisym, Hc.
  - rewrite !arrayComparer_lexicographic by assumption.
    now apply lexicographic_transitive.
Qed.

Lemma arrayComparer_consistent_witness :
  arrayComparer compareNumber [1]%float [1; 1]%float =
    - arrayComparer compareNumber [1; 1]%float [1]%float /\
  arrayComparer compareNumber [1]%float [2]%float <= 0.
Proof.
  pose proof (arrayComparer_consistent compareNumber [1]%float [1; 1]%float [2]%float
                compareNumber_consistent) as Hc.
  destruct Hc as [Hanti Htrans]; try (vm_compute; discriminate).
  split; [exact Hanti|].
  apply Htrans; vm_compute; discriminate.
Defined.

(** ** [compareStringNatural] on numerals and on the empty string *)

Lemma greedy_all (class : ascii -> bool) (s : string) :
  allChars class s = true -> greedy class s = (s, EmptyString).
Proof.
  induction s as [|c s IH]; simpl; intros Hall.
  - reflexivity.
  - apply andb_true_iff in Hall as [Hc Hs]. rewrite Hc, (IH Hs). reflexivity.
Qed.

Lemma naturalTokens_digits (text : string) :
  text <> EmptyString -> allChars isDigit text = true ->
  naturalTokens text = [num (number_of_Z (digitsValue text))].
Proof.
  intros Hne Hall. destruct text as [|c next]; [contradiction|].
  pose proof Hall as Hall'. simpl in Hall'. apply andb_true_iff in Hall' as [Hc Hnext].
  unfold naturalTokens, matchAll. simpl String.length.
  destruct (matchAllFrom_digit (String.length next) c next Hc) as (run & after & Hg & ->).
  rewrite (greedy_all isDigit next Hnext) in Hg. inversion Hg; subst.
  rewrite matchAllFrom_empty. cbn [map]. unfold tokenOfMatch.
  rewrite parseInt10_digits by (assumption || discriminate). reflexivity.
Qed.

Lemma matchAllFrom_length (fuel : nat) (s : string) :
  (length (matchAllFrom fuel s) <= fuel)%nat.
Proof.
  revert s. induction fuel as [|fuel IH]; intros s; simpl; [lia|].
  destruct s as [|c next]; simpl; [lia|].
  destruct (isDigit c) eqn:Hc.
  - destruct (greedy isDigit next) as [run after]. simpl. specialize (IH after). lia.
  - unfold isNonDigit at 1. rewrite Hc. simpl.
    destruct (greedy isNonDigit next) as [run after]. simpl. specialize (IH after). lia.
Qed.

(** X14: two numerals (non-empty strings of digits, below [2^53]) compare as
    the integers they denote, so leading zeros do not matter; and the empty
    string comes before every other string. *)
Theorem compareStringNatural_numerals `{Host} :
  (forall a b,
     a <> EmptyString -> b <> EmptyString ->
     allChars isDigit a = true -> allChars isDigit b = true ->
     digitsValue a < 2 ^ 53 -> digitsValue b < 2 ^ 53 ->
     compareStringNatural a b = Z.sgn (digitsValue a - digitsValue b))
  /\
  (forall s,
     s <> EmptyString -> Z.of_nat (String.length s) <= maxArrayLength ->
     compareStringNatural EmptyString s = -1 /\ compareStringNatural s EmptyString = 1).
Proof.
  split.
  - intros a b Hna Hnb Ha Hb Hva Hvb.
    unfold compareStringNatural, mapComparer.
    rewrite !naturalTokens_digits by assumption.
    unfold arrayComparer. simpl.
    rewrite compareNumberOrString_cases.
    pose proof (digitsValue_nonneg a Ha). pose proof (digitsValue_nonneg b Hb).
    rewrite compareNumber_number_of_Z by lia.
    destruct (Z.eqb_spec (Z.sgn (digitsValue a - digitsValue b)) 0) as [Hz | Hnz]; simpl.
    + rewrite Hz. apply compareNumber_refl.
    + reflexivity.
  - intros s Hne Hlen.
    assert (Htokens : (0 < length (naturalTokens s) <= String.length s)%nat).
    { unfold naturalTokens, matchAll. rewrite length_map. split.
      - destruct (matchAllFrom_runs (String.length s) s (Nat.le_refl _)) as (_ & _ & _ & Hhead).
        destruct s as [|c next]; [contradiction|].
        destruct Hhead as (m & rest & -> & _). simpl. lia.
      - apply matchAllFrom_length. }
    assert (Hcmp : compareStringNatural EmptyString s = -1).
    { unfold compareStringNatural, mapComparer, arrayComparer.
      change (naturalTokens EmptyString) with (@nil NumberOrString).
      simpl arrayComparerFrom.
      rewrite compareNumber_nats by (simpl; unfold maxArrayLength in *; lia).
      apply Z.sgn_neg_iff. simpl. lia. }
    split; [exact Hcmp|].
    unfold compareStringNatural, mapComparer, arrayComparer.
    change (naturalTokens EmptyString) with (@nil NumberOrString).
    rewrite Nat.min_0_r. simpl arrayComparerFrom.
    rewrite compareNumber_nats by (simpl; unfold maxArrayLength in *; lia).
    apply Z.sgn_pos_iff. simpl. lia.
Qed.

Lemma compareStringNatural_numerals_witness :
  @compareStringNatural codeUnitHost "007" "7" = Z.sgn (7 - 7) /\
  @compareStringNatural codeUnitHost "" "a1" = -1.
Proof.
  pose proof (@compareStringNatural_numerals codeUnitHost) as [Hnum Hempty].
  split.
  - apply (Hnum "007"%string "7"%string);
      first [discriminate | reflexivity | (vm_compute; reflexivity)].
  - apply (Hempty "a1"%string); [discriminate | vm_compute; discriminate].
Defined.

Lemma compareNumberOrString_preorder `{Host} :
  ComparerConsistent compareString -> ComparerConsistent compareNumberOrString.
Proof.
  intros [Hsa Hst]. split.
  - intros a b. rewrite !compareNumberOrString_cases. destruct a, b; try reflexivity.
    + apply compareNumber_antisym.
    + apply Hsa.
  - intros a b c. rewrite !compareNumberOrString_cases.
    destruct a, b, c; try lia.
    + apply compareNumber_transitive.
    + apply Hst.
Qed.

(** X15: [compareNumberOrString] is consistent whenever the string comparer
    is: numbers among themselves by [compareNumber], strings among themselves
    by [compareString], and every number before every string. *)
Theorem compareNumberOrString_consistent `{Host} :
  ComparerConsistent compareString ->
  ComparerConsistent compareNumberOrString /\
  (forall x s, compareNumberOrString (num x) (str s) = -1 /\
               compareNumberOrString (str s) (num x) = 1).
Proof.
  intros [Hsa Hst]. split; [split|].
  - intros a b. rewrite !compareNumberOrString_cases. destruct a, b; try reflexivity.
    + apply compareNumber_antisym.
    + apply Hsa.
  - intros a b c. rewrite !compareNumberOrString_cases.
    destruct a, b, c; try lia.
    + apply compareNumber_transitive.
    + apply Hst.
  - intros x s. rewrite !compareNumberOrString_cases. split; reflexivity.
Qed.

Lemma string_compare_transitive (a b c : string) :
  String.compare a b <> Gt -> String.compare b c <> Gt -> String.compare a c <> Gt.
Proof.
  revert b c. induction a as [|x a IH]; intros [|y b] [|z c]; simpl; try congruence.
  unfold Ascii.compare.
  destruct (N.compare_spec (N_of_ascii x) (N_of_ascii y)) as [Hxy|Hxy|Hxy];
    destruct (N.compare_spec (N_of_ascii y) (N_of_ascii z)) as [Hyz|Hyz|Hyz];
    try congruence.
  - rewrite Hxy, Hyz, N.compare_refl. apply IH.
  - intros _ _. rewrite Hxy, (proj2 (N.compare_lt_iff _ _) Hyz). discriminate.
  - intros _ _. rewrite <- Hyz, (proj2 (N.compare_lt_iff _ _) Hxy). discriminate.
  - intros _ _. rewrite (proj2 (N.compare_lt_iff _ _) (N.lt_trans _ _ _ Hxy Hyz)).
    discriminate.
Qed.

Lemma codeUnitHost_transitive : ComparerTransitive (@compareString codeUnitHost).
Proof.
  assert (Hle : forall a b,
             @compareString codeUnitHost a b <= 0 <-> String.compare a b <> Gt).
  { intros a b. unfold compareString, localeComparer. simpl.
    destruct (String.compare a b); vm_compute; split; congruence. }
  intros a b c. rewrite !Hle. apply string_compare_transitive.
Qed.

Lemma compareNumberOrString_consistent_witness :
  ComparerConsistent (@compareNumberOrString codeUnitHost).
Proof.
  apply (@compareNumberOrString_consistent codeUnitHost). split.
  - apply compareString_antisym, codeUnitHost_antisym.
  - apply codeUnitHost_transitive.
Defined.

Lemma naturalTokens_length (s : string) :
  (length (naturalTokens s) <= String.length s)%nat.
Proof.
  unfold naturalTokens, matchAll. rewrite length_map. apply matchAllFrom_length.
Qed.

(** X16: when the string comparer is consistent, [compareStringNatural] is
    consistent (anti-symmetric and transitive) on strings within the length
    limit: it is the lexicographic order of the token lists. *)
Theorem compareStringNatural_consistent `{Host} (a b d : string) :
  ComparerConsistent compareString ->
  Z.of_nat (String.length a) <= maxArrayLength ->
  Z.of_nat (String.length b) <= maxArrayLength ->
  Z.of_nat (String.length d) <= maxArrayLength ->
  compareStringNatural a b = - compareStringNatural b a /\
  compareStringNatural a b =
    lexicographic compareNumberOrString (naturalTokens a) (naturalTokens b) /\
  (compareStringNatural a b <= 0 -> compareStringNatural b d <= 0 ->
   compareStringNatural a d <= 0).
Proof.
  intros Hs Ha Hb Hd.
  pose proof (compareNumberOrString_preorder Hs) as Hc.
  pose proof (naturalTokens_length a). pose proof (naturalTokens_length b).
  pose proof (naturalTokens_length d).
  unfold compareStringNatural, mapComparer. split; [|split].
  - apply arrayComparer_antisym, Hc.
  - apply arrayComparer_lexicographic; lia.
  - rewrite !arrayComparer_lexicographic by lia.
    now apply lexicographic_transitive.
Qed.

Lemma compareStringNatural_consistent_witness :
  @compareStringNatural codeUnitHost "a2" "a10" =
    - @compareStringNatural codeUnitHost "a10" "a2" /\
  @compareStringNatural codeUnitHost "a2" "b1" <= 0.
Proof.
  assert (Hs : ComparerConsistent (@compareString codeUnitHost)).
  { split; [apply compareString_antisym, codeUnitHost_antisym
           | apply codeUnitHost_transitive]. }
  destruct (@compareStringNatural_consistent codeUnitHost "a2" "a10" "b1" Hs)
    as (Hanti & _ & Htrans); try (vm_compute; discriminate).
  split; [exact Hanti|].
  apply Htrans; vm_compute; discriminate.
Defined.

(** X17: [compareDate] orders two valid dates by their time values, older
    first; an invalid date (time NaN) compares equal to every date. *)
Theorem compareDate_by_time (a b : Date) :
  (is_finite (getTime a) = true -> is_finite (getTime b) = true ->
   compareDate a b = ascending (getTime a) (getTime b) /\
   compareDate a b = compareNumber (getTime a) (getTime b))
  /\
  (is_nan (getTime a) = true -> compareDate a b = 0 /\ compareDate b a = 0).
Proof.
  split.
  - intros Ha Hb. unfold compareDate, mapComparer. split.
    + now apply compareFiniteNumber_finite.
    + rewrite compareFiniteNumber_finite, compareNumber_rank by assumption.
      rewrite !numberRank_finite by assumption. reflexivity.
  - intros Ha. unfold compareDate, mapComparer, compareFiniteNumber, isFinite, is_finite.
    rewrite Ha. simpl. rewrite andb_false_r. split; reflexivity.
Qed.

Lemma compareDate_by_time_witness :
  compareDate {| getTime := 1000 |} {| getTime := 2000 |} = ascending 1000 2000 /\
  compareDate {| getTime := nan |} {| getTime := 2000 |} = 0.
Proof.
  split.
  - apply (proj1 (compareDate_by_time {| getTime := 1000 |} {| getTime := 2000 |}));
      reflexivity.
  - apply (proj2 (compareDate_by_time {| getTime := nan |} {| getTime := 2000 |})).
    reflexivity.
Defined.

